(** * Pub/Sub API client: event parser, replay-id codec and subscription engine

    A shallow embedding of [src/utils/eventParser.ts] (bitmap resolution,
    payload flattening, replay-id codec) and of the subscription part of
    [src/client.ts] (request validation, per-stream message handler,
    re-requests), with the properties stated about them.

    JavaScript strings are modelled by [string] (the bitmaps and field names
    of the wire format are ASCII), buffers by lists of bytes, thrown
    exceptions by the [Throw] case of the result type [Exc]. *)

From Stdlib Require Import ZArith QArith.QArith_base Ascii String Strings.Byte List Lia.
From stdpp Require Import gmap strings list fin_maps.
Import ListNotations.

#[local] Set Warnings "-register-all".
Local Open Scope Z_scope.

(* ===================================================================== *)
(** ** Wire messages and exceptions *)
(* ===================================================================== *)

(** A Node.js [Buffer]. *)
Abbreviation Buffer := (list byte).

(** [ProducerEvent] and [ConsumerEvent] of [pubsub_api.proto]; the inner
    [event] of a consumer event may be missing. *)
Record ProducerEvent := {
  pe_id : string;
  schemaId : string;
  payload : Buffer
}.

Record ConsumerEvent := {
  event : option ProducerEvent;
  replayId : Buffer
}.

(** The exceptions the modelled code throws. [EventParseError] is the class
    of [src/utils/eventParseError.ts]: its constructor stores the cause, the
    replay id (or [undefined]), the raw event and the latest replay id.
    A message is given by the text of its template in the source, with the
    interpolated expressions left unevaluated. *)
Inductive JsError :=
| TypeError (message : string)
| RangeError (message : string)
| Error (message : string) (cause : option JsError)
| EventParseError (message : string) (cause : JsError)
    (ep_replayId : option Z) (ep_event : option ConsumerEvent)
    (ep_latestReplayId : option Z).

(** Result of a computation that may throw. *)
Inductive Exc (A : Type) :=
| OK (a : A)
| Throw (e : JsError).
Arguments OK {A} a.
Arguments Throw {A} e.

#[global] Instance Exc_bind : MBind Exc := fun A B (k : A -> Exc B) (m : Exc A) =>
  match m with
  | OK a => k a
  | Throw e => Throw e
  end.

(** [arr.forEach(f)] where [f] may throw and threads a result. *)
Fixpoint forEachExc {A S} (f : S -> A -> Exc S) (l : list A) (s : S) : Exc S :=
  match l with
  | [] => OK s
  | a :: l' => s' ← f s a; forEachExc f l' s'
  end.

(* ===================================================================== *)
(** ** JavaScript string primitives used by the parser *)
(* ===================================================================== *)

Module Js.

(** [s.split('')]. *)
Fixpoint chars (s : string) : list ascii :=
  match s with
  | EmptyString => []
  | String c s' => c :: chars s'
  end.

(** [s.substring(n)]: the string without its first [n] characters. *)
Fixpoint substringFrom (n : nat) (s : string) : string :=
  match n, s with
  | O, _ => s
  | S n', String _ s' => substringFrom n' s'
  | S _, EmptyString => EmptyString
  end.

(** [s.replace(/c/g, by)] for a one-character pattern. *)
Fixpoint replaceAll (c : ascii) (by_ : string) (s : string) : string :=
  match s with
  | EmptyString => EmptyString
  | String a s' =>
      if Ascii.eqb a c then String.append by_ (replaceAll c by_ s')
      else String a (replaceAll c by_ s')
  end.

(** [s.startsWith(p)]. *)
Fixpoint startsWith (p s : string) : bool :=
  match p, s with
  | EmptyString, _ => true
  | String a p', String b s' => Ascii.eqb a b && startsWith p' s'
  | String _ _, EmptyString => false
  end.

(** [s.includes(c)] for a one-character argument. *)
Fixpoint includes (c : ascii) (s : string) : bool :=
  match s with
  | EmptyString => false
  | String a s' => Ascii.eqb a c || includes c s'
  end.

(** [s.split(c)] for a one-character separator; [splitAcc] carries the
    piece being read, reversed. *)
Fixpoint splitAcc (c : ascii) (acc : list ascii) (s : string) : list string :=
  match s with
  | EmptyString => [string_of_list_ascii (rev acc)]
  | String a s' =>
      if Ascii.eqb a c
      then string_of_list_ascii (rev acc) :: splitAcc c [] s'
      else splitAcc c (a :: acc) s'
  end.

Definition split (c : ascii) (s : string) : list string := splitAcc c [] s.

Definition isWhiteSpace (a : ascii) : bool :=
  let n := nat_of_ascii a in
  ((9 <=? n)%nat && (n <=? 13)%nat) || (n =? 32)%nat.

Definition digitValue (a : ascii) : option Z :=
  let n := Z.of_nat (nat_of_ascii a) in
  if (48 <=? n) && (n <=? 57) then Some (n - 48) else None.

Fixpoint skipWhiteSpace (s : string) : string :=
  match s with
  | String a s' => if isWhiteSpace a then skipWhiteSpace s' else s
  | EmptyString => s
  end.

(** Longest prefix of decimal digits, read as a number; [None] when the
    prefix is empty. *)
Fixpoint readDigits (acc : option Z) (s : string) : option Z :=
  match s with
  | String a s' =>
      match digitValue a with
      | Some d => readDigits (Some (10 * default 0 acc + d)) s'
      | None => acc
      end
  | EmptyString => acc
  end.

(** [parseInt(s, 10)]; [None] is [NaN]. *)
Definition parseInt (s : string) : option Z :=
  match skipWhiteSpace s with
  | String "-" s' => Z.opp <$> readDigits None s'
  | String "+" s' => readDigits None s'
  | s' => readDigits None s'
  end.

End Js.

(* ===================================================================== *)
(** ** Avro schema metadata (the part of [avro-js] the parser reads) *)
(* ===================================================================== *)

(** A type is a record with fields, a union of types, or something else
    (primitive, array, map, ...), which has neither [getFields] nor
    [getTypes]. *)
Inductive AvroType :=
| OtherType (typeName : string)
| RecordType (fields : list AvroField)
| UnionType (types : list AvroType)
with AvroField :=
| Field (_name : string) (_type : AvroType).

Definition getName (f : AvroField) : string :=
  match f with Field n _ => n end.

(* ===================================================================== *)
(** ** Bitmap field resolver *)
(* ===================================================================== *)

(** [hexToBin]: drop the two-character prefix, then sixteen global
    replacements, one per upper-case hexadecimal digit, in source order. *)
Definition hexToBin (hex : string) : string :=
  let bin := Js.substringFrom 2 hex in
  let bin := Js.replaceAll "0" "0000" bin in
  let bin := Js.replaceAll "1" "0001" bin in
  let bin := Js.replaceAll "2" "0010" bin in
  let bin := Js.replaceAll "3" "0011" bin in
  let bin := Js.replaceAll "4" "0100" bin in
  let bin := Js.replaceAll "5" "0101" bin in
  let bin := Js.replaceAll "6" "0110" bin in
  let bin := Js.replaceAll "7" "0111" bin in
  let bin := Js.replaceAll "8" "1000" bin in
  let bin := Js.replaceAll "9" "1001" bin in
  let bin := Js.replaceAll "A" "1010" bin in
  let bin := Js.replaceAll "B" "1011" bin in
  let bin := Js.replaceAll "C" "1100" bin in
  let bin := Js.replaceAll "D" "1101" bin in
  let bin := Js.replaceAll "E" "1110" bin in
  let bin := Js.replaceAll "F" "1111" bin in
  bin.
Arguments hexToBin : simpl never.

(** The loop of [getFieldNamesFromBitmap]: index [i] walks the reversed
    bit string and the field list together and stops at the shorter. *)
Fixpoint scanBits (binValue : list ascii) (fields : list AvroField) : list string :=
  match binValue, fields with
  | b :: binValue', f :: fields' =>
      (if Ascii.eqb b "1" then [getName f] else []) ++ scanBits binValue' fields'
  | _, _ => []
  end.

Definition getFieldNamesFromBitmap (fields : list AvroField) (fieldBitmapAsHex : string)
  : list string :=
  let binValue := hexToBin fieldBitmapAsHex in
  let binValue := rev (Js.chars binValue) in
  scanBits binValue fields.

(** [getChildFields]: the fields of the record branches of the parent's
    union type. [parentField] is [undefined] when the index was out of
    range, and [getTypes] exists on union types only: both throw. *)
Definition getChildFields (parentField : option AvroField) : Exc (list AvroField) :=
  match parentField with
  | None => Throw (TypeError "Cannot read properties of undefined (reading '_type')")
  | Some (Field _ (UnionType types)) =>
      OK (fold_left
            (fun fields type =>
               match type with
               | RecordType fs => fields ++ fs
               | _ => fields
               end) types [])
  | Some (Field _ _) => Throw (TypeError "parentField._type.getTypes is not a function")
  end.

(** [allFields[i]] for a number [i] ([None] stands for [NaN]). *)
Definition fieldAt (allFields : list AvroField) (i : option Z) : option AvroField :=
  match i with
  | Some z => if z <? 0 then None else allFields !! Z.to_nat z
  | None => None
  end.

Definition parentName (parentField : option AvroField) : string :=
  match parentField with
  | Some f => getName f
  | None => ""
  end.

(** One iteration of the [forEach] over compound entries. *)
Definition compoundStep (allFields : list AvroField) (fieldNames : list string)
    (fieldBitmapAsHex : string) : Exc (list string) :=
  match Js.split "-" fieldBitmapAsHex with
  | index :: bitmap :: _ =>
      let parentField := fieldAt allFields (Js.parseInt index) in
      childFields ← getChildFields parentField;
      let childFieldNames := getFieldNamesFromBitmap childFields bitmap in
      OK (fieldNames ++
          map (fun fieldName => parentName parentField +:+ "." +:+ fieldName)
              childFieldNames)
  | _ => OK fieldNames
  end.

Definition parseFieldBitmaps (allFields : list AvroField) (fieldBitmapsAsHex : list string)
  : Exc (list string) :=
  match fieldBitmapsAsHex with
  | [] => OK []
  | first :: _ =>
      let fieldNames :=
        if Js.startsWith "0x" first
        then getFieldNamesFromBitmap allFields first
        else [] in
      if (1 <? Z.of_nat (length fieldBitmapsAsHex))
         && Js.includes "-" (List.last fieldBitmapsAsHex "")
      then forEachExc (compoundStep allFields) fieldBitmapsAsHex fieldNames
      else OK fieldNames
  end.

(* ===================================================================== *)
(** ** Replay-id codec *)
(* ===================================================================== *)

Definition byteToZ (b : byte) : Z := Z.of_N (Byte.to_N b).

(** Storing a number into a [Uint8Array] slot keeps its low eight bits. *)
Definition byteOfZ (z : Z) : byte :=
  default x00 (Byte.of_N (Z.to_N (z mod 256))).

(** [Number(b)] for a BigInt [b]: the nearest binary64 value, ties to even.
    The result is an integer, given here by its value. Below [2^53] every
    integer is a binary64 value; above, the 53 leading bits are kept. *)
Definition roundToDouble (z : Z) : Z :=
  if z <? 2 ^ 53 then z
  else
    let e := Z.log2 z - 52 in
    let q := Z.shiftr z e in
    let r := z - Z.shiftl q e in
    let half := 2 ^ (e - 1) in
    if r <? half then Z.shiftl q e
    else if half <? r then Z.shiftl (q + 1) e
    else if Z.even q then Z.shiftl q e
    else Z.shiftl (q + 1) e.

Definition NumberOfBigInt (b : Z) : Z := Z.sgn b * roundToDouble (Z.abs b).

(** [buf.readBigUInt64BE()] of Node.js, offset 0: the first and the eighth
    byte must exist, the bytes after the eighth are not looked at. *)
Definition readBigUInt64BE (buf : Buffer) : Exc Z :=
  match buf with
  | b0 :: b1 :: b2 :: b3 :: b4 :: b5 :: b6 :: b7 :: _ =>
      let hi := byteToZ b0 * 2 ^ 24 + byteToZ b1 * 2 ^ 16 + byteToZ b2 * 2 ^ 8 + byteToZ b3 in
      let lo := byteToZ b4 * 2 ^ 24 + byteToZ b5 * 2 ^ 16 + byteToZ b6 * 2 ^ 8 + byteToZ b7 in
      OK (Z.shiftl hi 32 + lo)
  | _ => Throw (RangeError "Attempt to access memory outside buffer bounds")
  end.

(** [buf.writeBigUInt64BE(value, 0)] on a fresh 8-byte buffer. *)
Definition writeBigUInt64BE (value : Z) : Exc Buffer :=
  if (value <? 0) || (2 ^ 64 - 1 <? value)
  then Throw (RangeError "The value of 'value' is out of range")
  else
    let lo := Z.land value 0xffffffff in
    let hi := Z.land (Z.shiftr value 32) 0xffffffff in
    OK [byteOfZ (Z.shiftr hi 24); byteOfZ (Z.shiftr hi 16); byteOfZ (Z.shiftr hi 8); byteOfZ hi;
        byteOfZ (Z.shiftr lo 24); byteOfZ (Z.shiftr lo 16); byteOfZ (Z.shiftr lo 8); byteOfZ lo].

(** [decodeReplayId]: the result is a JavaScript number, given by its
    (integer) value. *)
Definition decodeReplayId (encodedReplayId : Buffer) : Exc Z :=
  b ← readBigUInt64BE encodedReplayId; OK (NumberOfBigInt b).

(** [encodeReplayId]: [replayId] is the integer passed, for which
    [BigInt(replayId)] is exact. A number argument holds binary64 values
    only; [BigInt] takes a BigInt argument as well, which holds any
    integer. *)
Definition encodeReplayId (replayId : Z) : Exc Buffer :=
  writeBigUInt64BE replayId.

(* ===================================================================== *)
(** ** Decoded payloads and their flattening *)
(* ===================================================================== *)

(** JavaScript numbers: the finite ones by their rational value. *)
Inductive JsNumber :=
| JsNaN
| JsInfinity (negative : bool)
| JsFinite (q : Q).

(** JavaScript values. An object is the list of its own enumerable
    properties in [Object.entries] order; keys are distinct. *)
Inductive JsValue :=
| JsUndefined
| JsNull
| JsBoolean (b : bool)
| JsNum (n : JsNumber)
| JsString (s : string)
| JsArray (items : list JsValue)
| JsObject (props : list (string * JsValue)).

(** [value && typeof value === 'object']. *)
Definition isObject (value : JsValue) : bool :=
  match value with
  | JsArray _ | JsObject _ => true
  | _ => false
  end.

(** [value[subKeys[0]]] when [Object.keys(value)] has length one. *)
Definition soleValue (value : JsValue) : option JsValue :=
  match value with
  | JsObject [(_, subValue)] => Some subValue
  | JsArray [subValue] => Some subValue
  | _ => None
  end.

Definition ChangeEventHeader : string := "ChangeEventHeader".

(** [flattenSinglePropertyObjects], as a function from the object before
    the call to the object after it. Every entry is handled on its own: an
    entry whose value has exactly one key is replaced by that key's value,
    and the function is then applied to the replacement if it is an
    object. The keys of an array are its indices, never the header's. *)
Fixpoint flattenSinglePropertyObjects (theObject : JsValue) : JsValue :=
  let entry (isHeader : bool) (value : JsValue) : JsValue :=
    if negb isHeader && isObject value then
      match value with
      | JsObject [(_, subValue)] | JsArray [subValue] =>
          if isObject subValue then flattenSinglePropertyObjects subValue
          else subValue
      | _ => value
      end
    else value in
  match theObject with
  | JsObject props =>
      JsObject (map (fun kv => (kv.1, entry (String.eqb kv.1 ChangeEventHeader) kv.2)) props)
  | JsArray items => JsArray (map (entry false) items)
  | _ => theObject
  end.

(* ===================================================================== *)
(** ** Subscription engine: data *)
(* ===================================================================== *)

Definition MAX_EVENT_BATCH_SIZE : Z := 100.

(** The request object handed to [#subscribe]; [numRequested] is whatever
    value the caller passed. *)
Record SubscribeRequest := {
  sr_topicName : string;
  sr_numRequested : JsValue;
  sr_replayPreset : option Z;
  sr_replayId : option Buffer
}.

(** A message written to the stream. *)
Record FetchRequest := {
  topicName : string;
  numRequested : Z;
  replayPreset : option Z;
  fr_replayId : option Buffer
}.

(** A message read from the stream; [events] may be absent. *)
Record FetchResponse := {
  events : option (list ConsumerEvent);
  latestReplayId : Buffer;
  rpcId : string;
  pendingNumRequested : Z
}.

(** The keepalive payload: the message of the [else] branch (its [events]
    are absent) with [latestReplayId] overwritten by the decoded number. *)
Record KeepAlive := {
  ka_latestReplayId : Z;
  ka_rpcId : string;
  ka_pendingNumRequested : Z
}.

(** What [parseEvent] returns. *)
Record ParsedEvent := {
  parsed_replayId : Z;
  parsed_payload : JsValue
}.

(** The schema entry of the cache: [{ id, type }]. *)
Record Schema := {
  schema_id : string;
  schema_fields : list AvroField
}.

(** The named signals of the event emitter. *)
Inductive Signal :=
| SigData (parsedEvent : ParsedEvent)
| SigError (e : JsError)
| SigKeepalive (m : KeepAlive)
| SigLastevent
| SigEnd
| SigStatus (s : string).

(** Modelled from the spec: the class [PubSubEventEmitter] of
    [src/utils/pubSubEventEmitter], which the client imports and whose file
    is not among the sources. The spec gives it a topic name, a requested
    and a received counter; "after each event, increment the received
    counter"; a re-request "resets the event source's received counter to
    zero and its requested counter to [count]". The handler of the client has
    no statement that counts, so the count is kept by [emit], once for each
    signal that reports one event of a batch ([data], or [error] with an
    [EventParseError]). The signals are recorded in emission order, as a
    consumer listening on every channel sees them. *)
Record PubSubEventEmitter := {
  em_topicName : string;
  requestedEventCount : Z;
  receivedEventCount : Z;
  emitted : list Signal
}.

Definition newPubSubEventEmitter (topic : string) (requested : Z) : PubSubEventEmitter :=
  {| em_topicName := topic; requestedEventCount := requested;
     receivedEventCount := 0; emitted := [] |}.

Definition reportsEvent (s : Signal) : bool :=
  match s with
  | SigData _ => true
  | SigError (EventParseError _ _ _ _ _) => true
  | _ => false
  end.

Definition emit (s : Signal) (em : PubSubEventEmitter) : PubSubEventEmitter :=
  {| em_topicName := em_topicName em;
     requestedEventCount := requestedEventCount em;
     receivedEventCount :=
       if reportsEvent s then receivedEventCount em + 1 else receivedEventCount em;
     emitted := emitted em ++ [s] |}.

Definition _resetEventCount (newRequestedEventCount : Z) (em : PubSubEventEmitter)
  : PubSubEventEmitter :=
  {| em_topicName := em_topicName em;
     requestedEventCount := newRequestedEventCount;
     receivedEventCount := 0;
     emitted := emitted em |}.

(** The client: whether [#client] is set, the map [#subscriptions] from
    topic names to open streams (a stream is given by the messages written
    to it so far), and the calls of [logger.warn]. *)
Record PubSubApiClient := {
  client : bool;
  subscriptions : gmap string (list FetchRequest);
  warnings : list string
}.

(* ===================================================================== *)
(** ** Subscription engine: [#subscribe] up to the handlers *)
(* ===================================================================== *)

Definition typeofIsNumber (v : JsValue) : bool :=
  match v with JsNum _ => true | _ => false end.

Definition isInteger (q : Q) : bool := (Qnum q mod Zpos (Qden q) =? 0).

Definition integerValue (q : Q) : Z := Qnum q / Zpos (Qden q).

(** [Number.isSafeInteger(n)]. *)
Definition isSafeInteger (n : JsNumber) : bool :=
  match n with
  | JsFinite q => isInteger q && (Z.abs (integerValue q) <=? 2 ^ 53 - 1)
  | _ => false
  end.

(** [n < k] and [n > k] for an integer [k]; both are false on [JsNaN]. *)
Definition ltInt (n : JsNumber) (k : Z) : bool :=
  match n with
  | JsFinite q => Qnum q <? k * Zpos (Qden q)
  | JsInfinity negative => negative
  | JsNaN => false
  end.

Definition gtInt (n : JsNumber) (k : Z) : bool :=
  match n with
  | JsFinite q => k * Zpos (Qden q) <? Qnum q
  | JsInfinity negative => negb negative
  | JsNaN => false
  end.

(** The check of the number of requested events. The result is the flag
    [isInfiniteEventRequest], the count to request, and whether the warning
    is logged. *)
Definition checkNumRequested (numRequested : JsValue) : Exc (bool * Z * bool) :=
  match numRequested with
  | JsNull | JsUndefined => OK (true, MAX_EVENT_BATCH_SIZE, false)
  | JsNum n =>
      if negb (isSafeInteger n) || ltInt n 1 then
        Throw (Error "Expected an integer greater than 1 for number of requested events but got ${numRequested}" None)
      else
        OK (false,
            match n with JsFinite q => integerValue q | _ => 0 end,
            gtInt n MAX_EVENT_BATCH_SIZE)
  | _ =>
      Throw (Error "Expected a number type for number of requested events but got ${typeof numRequested}" None)
  end.

Definition warn (message : string) (c : PubSubApiClient) : PubSubApiClient :=
  {| client := client c; subscriptions := subscriptions c;
     warnings := warnings c ++ [message] |}.

Definition failedToSubscribe (cause : JsError) : JsError :=
  Error "Failed to subscribe to events for topic ${topicName}" (Some cause).

(** What a successful [#subscribe] leaves behind: the emitter it returns
    and the flag captured by the handlers it registered. *)
Record Subscription := {
  eventEmitter : PubSubEventEmitter;
  isInfiniteEventRequest : bool
}.

(** [#subscribe] up to the registration of the handlers. The client after
    the call is returned in both outcomes: the warning is logged before the
    connection is checked. *)
Definition subscribe (subscribeRequest : SubscribeRequest) (c : PubSubApiClient)
  : Exc Subscription * PubSubApiClient :=
  let topic := sr_topicName subscribeRequest in
  match checkNumRequested (sr_numRequested subscribeRequest) with
  | Throw e => (Throw (failedToSubscribe e), c)
  | OK (isInfinite, n, warned) =>
      let c :=
        if warned
        then warn "The number of requested events for ${topicName} exceeds max event batch size (${MAX_EVENT_BATCH_SIZE})." c
        else c in
      if negb (client c) then
        (Throw (failedToSubscribe (Error "Pub/Sub API client is not connected." None)), c)
      else
        let subscription := default [] (subscriptions c !! topic) in
        let request :=
          {| topicName := topic; numRequested := n;
             replayPreset := sr_replayPreset subscribeRequest;
             fr_replayId := sr_replayId subscribeRequest |} in
        (OK {| eventEmitter := newPubSubEventEmitter topic n;
               isInfiniteEventRequest := isInfinite |},
         {| client := client c;
            subscriptions := <[topic := subscription ++ [request]]> (subscriptions c);
            warnings := warnings c |})
  end.

(** [requestAdditionalEvents]: the emitter and the client after the call,
    or the error the returned promise is rejected with. *)
Definition requestAdditionalEvents (em : PubSubEventEmitter) (n : Z) (c : PubSubApiClient)
  : Exc (PubSubEventEmitter * PubSubApiClient) :=
  let topic := em_topicName em in
  match subscriptions c !! topic with
  | None =>
      Throw (Error "Failed to request additional events for topic ${topicName}, no active subscription found." None)
  | Some subscription =>
      let request :=
        {| topicName := topic; numRequested := n;
           replayPreset := None; fr_replayId := None |} in
      OK (_resetEventCount n em,
          {| client := client c;
             subscriptions := <[topic := subscription ++ [request]]> (subscriptions c);
             warnings := warnings c |})
  end.

(* ===================================================================== *)
(** ** Subscription engine: the handlers of a stream *)
(* ===================================================================== *)

(** The state the handlers of one [#subscribe] call act on: the emitter
    they captured and the client. *)
Record Engine := {
  emitter : PubSubEventEmitter;
  api : PubSubApiClient
}.

Definition emitOn (s : Signal) (st : Engine) : Engine :=
  {| emitter := emit s (emitter st); api := api st |}.

Section Handlers.

(** [#getEventSchemaFromId] (schema cache, then the service) and
    [parseEvent] (the Avro decoder) are taken as given: the handler only
    distinguishes their returning from their throwing. *)
Variable getEventSchemaFromId : string -> Exc Schema.
Variable parseEvent : Schema -> ConsumerEvent -> Exc ParsedEvent.

(** The [try] block of the loop body. *)
Definition tryParse (ev : ConsumerEvent) : Exc ParsedEvent :=
  match event ev with
  | None => Throw (TypeError "Cannot read properties of undefined (reading 'schemaId')")
  | Some inner =>
      schema ← getEventSchemaFromId (schemaId inner);
      parseEvent schema ev
  end.

(** The replay id of the [catch] block: [undefined] when it cannot be
    decoded. *)
Definition bestEffortReplayId (ev : ConsumerEvent) : option Z :=
  match decodeReplayId (replayId ev) with
  | OK r => Some r
  | Throw _ => None
  end.

(** The [EventParseError] of the [catch] block; the message depends on
    the truthiness of the replay id. *)
Definition parseError (latest : Z) (ev : ConsumerEvent) (cause : JsError) : JsError :=
  let replay := bestEffortReplayId ev in
  let message :=
    match replay with
    | Some r =>
        if r =? 0
        then "Failed to parse event with unknown replay ID (latest replay ID was ${latestReplayId})"
        else "Failed to parse event with replay ID ${replayId}"
    | None => "Failed to parse event with unknown replay ID (latest replay ID was ${latestReplayId})"
    end in
  EventParseError message cause replay (Some ev) (Some latest).

(** The signal emitted for one event of a batch. *)
Definition eventSignal (latest : Z) (ev : ConsumerEvent) : Signal :=
  match tryParse ev with
  | OK parsedEvent => SigData parsedEvent
  | Throw cause => SigError (parseError latest ev cause)
  end.

(** "Handle last requested event". The promise returned by
    [requestAdditionalEvents] is not awaited: a rejection leaves the state
    as it is and does not reach the loop. *)
Definition handleLastRequested (isInfinite : bool) (st : Engine) : Engine :=
  if receivedEventCount (emitter st) =? requestedEventCount (emitter st) then
    if isInfinite then
      match requestAdditionalEvents (emitter st) MAX_EVENT_BATCH_SIZE (api st) with
      | OK (em, c) => {| emitter := em; api := c |}
      | Throw _ => st
      end
    else emitOn SigLastevent st
  else st.

(** One iteration of [for (const event of data.events)]. *)
Definition onEvent (isInfinite : bool) (latest : Z) (st : Engine) (ev : ConsumerEvent)
  : Engine :=
  handleLastRequested isInfinite (emitOn (eventSignal latest ev) st).

(** The ["data"] handler. Its first statement may throw, which rejects
    the handler's promise before anything is emitted. An [events] array,
    empty or not, is truthy; the keepalive branch is taken when the field
    is absent. *)
Definition onData (isInfinite : bool) (data : FetchResponse) (st : Engine) : Exc Engine :=
  latest ← decodeReplayId (latestReplayId data);
  match events data with
  | Some evs => OK (fold_left (onEvent isInfinite latest) evs st)
  | None =>
      OK (emitOn (SigKeepalive {| ka_latestReplayId := latest;
                                  ka_rpcId := rpcId data;
                                  ka_pendingNumRequested := pendingNumRequested data |})
                 st)
  end.

(** The ["end"], ["error"] and ["status"] handlers. *)
Definition onEnd (st : Engine) : Engine :=
  emitOn SigEnd
    {| emitter := emitter st;
       api := {| client := client (api st);
                 subscriptions := delete (em_topicName (emitter st)) (subscriptions (api st));
                 warnings := warnings (api st) |} |}.

Definition onError (e : JsError) (st : Engine) : Engine := emitOn (SigError e) st.

Definition onStatus (s : string) (st : Engine) : Engine := emitOn (SigStatus s) st.

End Handlers.

(** Signals of a given kind in a log. *)
Definition isLastevent (s : Signal) : bool :=
  match s with SigLastevent => true | _ => false end.

Definition isKeepalive (s : Signal) : bool :=
  match s with SigKeepalive _ => true | _ => false end.

Definition isData (s : Signal) : bool :=
  match s with SigData _ => true | _ => false end.

Definition countSignals (p : Signal -> bool) (log : list Signal) : nat :=
  length (List.filter p log).

(* ===================================================================== *)
(** ** The top-level bitmap resolution in the words of the specification *)
(* ===================================================================== *)

(** The value of a hexadecimal digit, in either case. *)
Definition hexDigitValue (c : ascii) : option Z :=
  let n := Z.of_nat (nat_of_ascii c) in
  if (48 <=? n) && (n <=? 57) then Some (n - 48)
  else if (65 <=? n) && (n <=? 70) then Some (n - 55)
  else if (97 <=? n) && (n <=? 102) then Some (n - 87)
  else None.

(** The 4-bit binary form of a digit value, most significant bit first. *)
Definition fourBits (v : Z) : list bool :=
  [Z.testbit v 3; Z.testbit v 2; Z.testbit v 1; Z.testbit v 0].

(** "Convert each hex digit to its 4-bit binary form, concatenate". *)
Fixpoint hexToBits (digits : string) : option (list bool) :=
  match digits with
  | EmptyString => Some []
  | String c rest =>
      v ← hexDigitValue c; bits ← hexToBits rest; Some (fourBits v ++ bits)
  end.

(** "For each bit position [i] set to 1, emit [fields[i].name]"; a
    position beyond the field list emits nothing. *)
Definition namesAtSetBits (fields : list AvroField) (bits : list bool) : list string :=
  omap (fun i =>
          match bits !! i, fields !! i with
          | Some true, Some f => Some (getName f)
          | _, _ => None
          end)
       (seq 0 (length bits)).

(** The resolution of a top-level bitmap made of the prefix and of
    hexadecimal digits. *)
Definition resolveTopLevelBitmap (fields : list AvroField) (bitmap : string)
  : option (list string) :=
  bits ← hexToBits (Js.substringFrom 2 bitmap);
  Some (namesAtSetBits fields (rev bits)).

(** Digits of the conversion table of [hexToBin], and the lower-case
    digits it does not have. *)
Definition isUpperHex (c : ascii) : bool :=
  let n := Z.of_nat (nat_of_ascii c) in
  ((48 <=? n) && (n <=? 57)) || ((65 <=? n) && (n <=? 70)).


Fixpoint allChars (p : ascii -> bool) (s : string) : bool :=
  match s with
  | EmptyString => true
  | String c s' => p c && allChars p s'
  end.

Definition bitChar (b : bool) : ascii := if b then "1"%char else "0"%char.

(** What [hexToBin] makes of one character after the prefix. *)
Definition nibble (c : ascii) : string := hexToBin (String "0" (String "x" (String c ""))).

(** The unsigned big-endian value of a byte sequence. *)
Definition bigEndian (bytes : list byte) : Z :=
  fold_left (fun acc b => acc * 256 + byteToZ b) bytes 0.

(** The integers that are binary64 values: at most 53 significant bits. *)
Definition isBinary64Integer (x : Z) : bool :=
  x mod 2 ^ Z.max 0 (Z.log2 (Z.abs x) - 52) =? 0.

(** The numbers that are integers. *)
Definition isIntegerNumber (n : JsNumber) : bool :=
  match n with
  | JsFinite q => isInteger q
  | _ => false
  end.

Definition exceedsBatchWarning : string :=
  "The number of requested events for ${topicName} exceeds max event batch size (${MAX_EVENT_BATCH_SIZE}).".

(** A connected client without subscriptions, and a request on a topic. *)
Definition connectedClient : PubSubApiClient :=
  {| client := true; subscriptions := ∅; warnings := [] |}.

Definition requestFor (topic : string) (n : JsValue) : SubscribeRequest :=
  {| sr_topicName := topic; sr_numRequested := n;
     sr_replayPreset := None; sr_replayId := None |}.

(** What flattening makes of the property [key] of an object. *)
Definition flattenEntry (key : string) (value : JsValue) : JsValue :=
  if String.eqb key ChangeEventHeader then value
  else match soleValue value with
       | Some subValue =>
           if isObject subValue then flattenSinglePropertyObjects subValue else subValue
       | None => value
       end.

(** [theObject[key]] for an object given by its properties. *)
Fixpoint getProp (key : string) (props : list (string * JsValue)) : option JsValue :=
  match props with
  | [] => None
  | (k, value) :: props' => if String.eqb k key then Some value else getProp key props'
  end.

(** "Every single-key wrapper object (outside the change-tracking header)
    is replaced": no property value or array item, at any depth outside a
    property named [ChangeEventHeader], is left with exactly one key. *)
Fixpoint noWrapperLeft (v : JsValue) : bool :=
  let clean (v' : JsValue) : bool :=
    match soleValue v' with
    | Some _ => false
    | None => noWrapperLeft v'
    end in
  match v with
  | JsObject props =>
      forallb (fun kv => String.eqb kv.1 ChangeEventHeader || clean kv.2) props
  | JsArray items => forallb clean items
  | _ => true
  end.

(** Example schema: four fields, the second a nullable record with two
    fields. *)
Definition fieldA : AvroField := Field "A" (OtherType "string").
Definition fieldB : AvroField :=
  Field "B" (UnionType [OtherType "null";
                        RecordType [Field "c0" (OtherType "string");
                                    Field "c1" (OtherType "string")]]).
Definition fieldC : AvroField := Field "C" (OtherType "string").
Definition fieldD : AvroField := Field "D" (OtherType "string").
Definition exampleFields : list AvroField := [fieldA; fieldB; fieldC; fieldD].

(** Example stream traffic: a schema service that knows one schema, a
    decoder that returns an empty payload, events with a known and with an
    unknown schema, and messages built from them. *)
Definition exampleSchema : Schema :=
  {| schema_id := "s1"; schema_fields := exampleFields |}.

Definition exampleGetSchema (id : string) : Exc Schema :=
  if String.eqb id "s1" then OK exampleSchema
  else Throw (Error "Failed to load schema with ID ${schemaId}" None).

Definition exampleParseEvent (schema : Schema) (ev : ConsumerEvent) : Exc ParsedEvent :=
  r ← decodeReplayId (replayId ev);
  OK {| parsed_replayId := r; parsed_payload := JsObject [] |}.

Definition replayBytes (low : byte) : Buffer :=
  [x00; x00; x00; x00; x00; x00; x00; low].

Definition goodEvent (low : byte) : ConsumerEvent :=
  {| event := Some {| pe_id := "id"; schemaId := "s1"; payload := [] |};
     replayId := replayBytes low |}.

Definition badEvent (low : byte) : ConsumerEvent :=
  {| event := Some {| pe_id := "id"; schemaId := "s2"; payload := [] |};
     replayId := replayBytes low |}.

Definition messageOf (evs : option (list ConsumerEvent)) (latest : byte) : FetchResponse :=
  {| events := evs; latestReplayId := replayBytes latest;
     rpcId := "rpc"; pendingNumRequested := 0 |}.

Definition boundedRequest : SubscribeRequest :=
  requestFor "/event/T" (JsNum (JsFinite (inject_Z 3))).

Definition unboundedRequest : SubscribeRequest := requestFor "/event/T" JsNull.

(* ===================================================================== *)
(** ** The Avro long type of [src/utils/avroHelper] *)
(* ===================================================================== *)

(** A long as the custom type hands it out: a number or a BigInt, each
    given by its integer value. *)
Inductive LongValue :=
| LongNumber (n : Z)
| LongBigInt (b : Z).

Definition longInteger (v : LongValue) : Z :=
  match v with
  | LongNumber n => n
  | LongBigInt b => b
  end.

Definition MAX_SAFE_INTEGER : Z := 2 ^ 53 - 1.
Definition MIN_SAFE_INTEGER : Z := - (2 ^ 53 - 1).

(** [x << 24] on numbers: the 32-bit result, read as signed. *)
Definition shiftLeft24 (x : Z) : Z :=
  let w := (x * 2 ^ 24) mod 2 ^ 32 in
  if w <? 2 ^ 31 then w else w - 2 ^ 32.

(** [BigInt.asIntN(64, b)]. *)
Definition asIntN64 (b : Z) : Z :=
  let w := b mod 2 ^ 64 in
  if w <? 2 ^ 63 then w else w - 2 ^ 64.

(** [buf.readBigInt64LE()] of Node.js, offset 0. *)
Definition readBigInt64LE (buf : Buffer) : Exc Z :=
  match buf with
  | b0 :: b1 :: b2 :: b3 :: b4 :: b5 :: b6 :: b7 :: _ =>
      let val := byteToZ b4 + byteToZ b5 * 2 ^ 8 + byteToZ b6 * 2 ^ 16
                 + shiftLeft24 (byteToZ b7) in
      OK (Z.shiftl val 32
          + (byteToZ b0 + byteToZ b1 * 2 ^ 8 + byteToZ b2 * 2 ^ 16 + byteToZ b3 * 2 ^ 24))
  | _ => Throw (RangeError "Attempt to access memory outside buffer bounds")
  end.

(** [buf.writeBigInt64LE(value)] on a fresh 8-byte buffer. *)
Definition writeBigInt64LE (value : Z) : Exc Buffer :=
  if (value <? - 2 ^ 63) || (2 ^ 63 - 1 <? value)
  then Throw (RangeError "The value of 'value' is out of range")
  else
    let lo := Z.land value 0xffffffff in
    let hi := Z.land (Z.shiftr value 32) 0xffffffff in
    OK [byteOfZ lo; byteOfZ (Z.shiftr lo 8); byteOfZ (Z.shiftr lo 16); byteOfZ (Z.shiftr lo 24);
        byteOfZ hi; byteOfZ (Z.shiftr hi 8); byteOfZ (Z.shiftr hi 16); byteOfZ (Z.shiftr hi 24)].

Module CustomLongAvroType.

(** [fromBuffer]: a BigInt outside the safe integers, a number inside. *)
Definition fromBuffer (buf : Buffer) : Exc LongValue :=
  big ← readBigInt64LE buf;
  if (big <? MIN_SAFE_INTEGER) || (MAX_SAFE_INTEGER <? big)
  then OK (LongBigInt big)
  else OK (LongNumber (NumberOfBigInt (asIntN64 big))).

(** [toBuffer]: [n instanceof BigInt] is false for a number and for a
    BigInt value alike, so both go through [BigInt(n)], which is exact on
    the integers. *)
Definition toBuffer (n : LongValue) : Exc Buffer :=
  writeBigInt64LE (longInteger n).

(** [n1 === n2], which is false between a number and a BigInt. *)
Definition strictEquals (n1 n2 : LongValue) : bool :=
  match n1, n2 with
  | LongNumber a, LongNumber b => a =? b
  | LongBigInt a, LongBigInt b => a =? b
  | _, _ => false
  end.

(** [compare]; [<] between a number and a BigInt compares the values. *)
Definition compare (n1 n2 : LongValue) : Z :=
  if strictEquals n1 n2 then 0
  else if longInteger n1 <? longInteger n2 then -1
  else 1.

End CustomLongAvroType.

(* ===================================================================== *)
(** ** [parseEvent] *)
(* ===================================================================== *)

(** JavaScript truthiness. *)
Definition truthy (v : JsValue) : bool :=
  match v with
  | JsUndefined | JsNull => false
  | JsBoolean b => b
  | JsNum JsNaN => false
  | JsNum (JsInfinity _) => true
  | JsNum (JsFinite q) => negb (Qnum q =? 0)
  | JsString s => negb (String.eqb s "")
  | JsArray _ | JsObject _ => true
  end.

(** [theObject[key] = value] on an object that has the property: the
    property keeps its place. On an object without it the property is
    added last. *)
Fixpoint setProp (key : string) (value : JsValue) (props : list (string * JsValue))
  : list (string * JsValue) :=
  match props with
  | [] => [(key, value)]
  | (k, v) :: props' =>
      if String.eqb k key then (k, value) :: props'
      else (k, v) :: setProp key value props'
  end.

(** An array all of whose items are strings. *)
Fixpoint stringItems (items : list JsValue) : option (list string) :=
  match items with
  | [] => Some []
  | JsString s :: items' => l ← stringItems items'; Some (s :: l)
  | _ => None
  end.

(** One of the three assignments
    [changeEventHeader.f = parseFieldBitmaps(allFields, changeEventHeader.f)]
    on the properties of the header, before its [catch]. The Avro schema of
    the header makes [f] an array of strings. A missing, [undefined],
    [null], boolean or number [f] makes [parseFieldBitmaps] throw a
    [TypeError]; the other values (a string, an object, an array with an
    item that is not a string) are outside this model: [None]. *)
Definition resolveHeaderField (allFields : list AvroField) (f : string)
    (header : list (string * JsValue)) : option (Exc (list (string * JsValue))) :=
  match getProp f header with
  | None | Some JsUndefined | Some JsNull =>
      Some (Throw (TypeError "Cannot read properties of undefined (reading 'length')"))
  | Some (JsBoolean _) | Some (JsNum _) =>
      Some (Throw (TypeError "Cannot read properties of undefined (reading 'startsWith')"))
  | Some (JsArray items) =>
      match stringItems items with
      | Some fieldBitmapsAsHex =>
          Some (names ← parseFieldBitmaps allFields fieldBitmapsAsHex;
                OK (setProp f (JsArray (map JsString names)) header))
      | None => None
      end
  | Some (JsString _) | Some (JsObject _) => None
  end.

(** The same with its [catch], which wraps the error. *)
Definition resolveHeaderFieldOr (message : string) (allFields : list AvroField) (f : string)
    (header : list (string * JsValue)) : option (Exc (list (string * JsValue))) :=
  match resolveHeaderField allFields f header with
  | Some (Throw e) => Some (Throw (EventParseError message e None None None))
  | r => r
  end.

(** The block "Parse CDC header if available" on the header's properties.
    The second message is the one of the source. *)
Definition parseHeader (allFields : list AvroField) (header : list (string * JsValue))
  : option (Exc (list (string * JsValue))) :=
  match resolveHeaderFieldOr "Failed to parse nulledFields" allFields "nulledFields" header with
  | Some (OK header1) =>
      match resolveHeaderFieldOr "Failed to parse nulledFields" allFields "diffFields" header1 with
      | Some (OK header2) =>
          resolveHeaderFieldOr "Failed to parse changedFields" allFields "changedFields" header2
      | r => r
      end
  | r => r
  end.

(** The decoded payload after the header block. A header that is truthy
    and not a plain object has no [nulledFields], which throws in the first
    [try]. *)
Definition withParsedHeader (allFields : list AvroField) (payload : JsValue)
  : option (Exc JsValue) :=
  match payload with
  | JsUndefined | JsNull =>
      Some (Throw (TypeError "Cannot read properties of undefined (reading 'ChangeEventHeader')"))
  | JsObject props =>
      match getProp ChangeEventHeader props with
      | Some header =>
          if truthy header then
            match header with
            | JsObject headerProps =>
                match parseHeader allFields headerProps with
                | Some (OK headerProps') =>
                    Some (OK (JsObject (setProp ChangeEventHeader (JsObject headerProps') props)))
                | Some (Throw e) => Some (Throw e)
                | None => None
                end
            | _ =>
                Some (Throw (EventParseError "Failed to parse nulledFields"
                               (TypeError "Cannot read properties of undefined (reading 'length')")
                               None None None))
            end
          else Some (OK payload)
      | None => Some (OK payload)
      end
  | _ => Some (OK payload)
  end.

Section ParseEvent.

(** [schema.type.fromBuffer], the Avro decoder of the schema. *)
Variable fromBuffer : Schema -> Buffer -> Exc JsValue.

(** [parseEvent]; [None] when a header field is outside the model (see
    [resolveHeaderField]). *)
Definition parseEvent (schema : Schema) (ev : ConsumerEvent) : option (Exc ParsedEvent) :=
  match event ev with
  | None =>
      Some (Throw (EventParseError "Failed to process the event due to missing event data"
                     (Error "Event data is missing in the response" None) None None None))
  | Some inner =>
      let allFields := schema_fields schema in
      match decodeReplayId (replayId ev) with
      | Throw e => Some (Throw e)
      | OK replay =>
          match fromBuffer schema (payload inner) with
          | Throw e => Some (Throw e)
          | OK decoded =>
              match withParsedHeader allFields decoded with
              | Some (OK decoded') =>
                  Some (OK {| parsed_replayId := replay;
                              parsed_payload := flattenSinglePropertyObjects decoded' |})
              | Some (Throw e) => Some (Throw e)
              | None => None
              end
          end
      end
  end.

End ParseEvent.

(* ===================================================================== *)
(** ** Connection arguments, the public subscribe methods, [disconnect] *)
(* ===================================================================== *)

(** What [connectWithAuth] hands to [#connectToPubSubApi]. *)
Record ConnectionMetadata := {
  accessToken : option string;
  instanceUrl : string;
  organizationId : string
}.

(** [accessToken.split("!").at(0)] inside its [try]. *)
Definition organizationFromToken (token : option string) : Exc string :=
  match token with
  | Some t => OK (hd "" (Js.split "!" t))
  | None =>
      Throw (Error "Unable to parse organizationId from given access token"
               (Some (TypeError "Cannot read properties of undefined (reading 'split')")))
  end.

(** [connectWithAuth] up to the call of [#connectToPubSubApi]; an argument
    that was not passed is [None]. *)
Definition connectWithAuth (token url organization : option string)
  : Exc ConnectionMetadata :=
  match url with
  | Some instanceUrl_ =>
      if String.eqb instanceUrl_ "" || negb (Js.startsWith "https://" instanceUrl_) then
        Throw (Error "Invalid Salesforce Instance URL format supplied: ${instanceUrl}" None)
      else
        validOrganizationId ←
          match organization with
          | Some o => if String.eqb o "" then organizationFromToken token else OK o
          | None => organizationFromToken token
          end;
        if negb (String.length validOrganizationId =? 15)%nat
           && negb (String.length validOrganizationId =? 18)%nat
        then Throw (Error "Invalid Salesforce Org ID format supplied: ${validOrganizationId}" None)
        else OK {| accessToken := token; instanceUrl := instanceUrl_;
                   organizationId := validOrganizationId |}
  | None => Throw (Error "Invalid Salesforce Instance URL format supplied: ${instanceUrl}" None)
  end.

(** A parameter with the default value [null]. *)
Definition orNull (v : JsValue) : JsValue :=
  match v with
  | JsUndefined => JsNull
  | _ => v
  end.

(** The public [subscribe]. *)
Definition subscribeToTopic (topic : string) (requested : JsValue) (c : PubSubApiClient)
  : Exc Subscription * PubSubApiClient :=
  subscribe {| sr_topicName := topic; sr_numRequested := orNull requested;
               sr_replayPreset := None; sr_replayId := None |} c.

Definition subscribeFromEarliestEvent (topic : string) (requested : JsValue)
    (c : PubSubApiClient) : Exc Subscription * PubSubApiClient :=
  subscribe {| sr_topicName := topic; sr_numRequested := orNull requested;
               sr_replayPreset := Some 1; sr_replayId := None |} c.

(** [subscribeFromReplayId]: the replay id is encoded while the request is
    built, before [#subscribe] is entered. *)
Definition subscribeFromReplayId (topic : string) (requested : JsValue) (replay : Z)
    (c : PubSubApiClient) : Exc Subscription * PubSubApiClient :=
  match encodeReplayId replay with
  | Throw e => (Throw e, c)
  | OK encoded =>
      subscribe {| sr_topicName := topic; sr_numRequested := requested;
                   sr_replayPreset := Some 2; sr_replayId := Some encoded |} c
  end.

(** [disconnect]: every stream is ended and removed from the map, one
    topic after the other, then the client is closed; on a client that is
    not connected only a warning is logged. Ending a stream and closing the
    client do not throw. *)
Definition disconnect (c : PubSubApiClient) : PubSubApiClient :=
  if client c then
    {| client := false;
       subscriptions :=
         fold_left (fun m entry => delete entry.1 m)
                   (map_to_list (subscriptions c)) (subscriptions c);
       warnings := warnings c |}
  else warn "Client is not connected." c.

(* ===================================================================== *)
(** ** Measures used in the properties *)
(* ===================================================================== *)

(** The number a string of hexadecimal digits denotes. *)
Definition hexValue (digits : string) : Z :=
  fold_left (fun acc c => 16 * acc + default 0 (hexDigitValue c)) (Js.chars digits) 0.

(** The names of the fields whose index satisfies [selected]. *)
Definition namesWhere (selected : nat -> bool) (fields : list AvroField) : list string :=
  omap (fun i => if selected i then getName <$> fields !! i else None)
       (seq 0 (length fields)).

(** The number of values in a JavaScript value. *)
Fixpoint jsSize (v : JsValue) : nat :=
  match v with
  | JsObject props => S (list_sum (map (fun kv => jsSize kv.2) props))
  | JsArray items => S (list_sum (map jsSize items))
  | _ => 1
  end.

(** The requests written to the stream of a topic. *)
Definition written (topic : string) (c : PubSubApiClient) : list FetchRequest :=
  default [] (subscriptions c !! topic).

(** The names one compound entry [index-bitmap] contributes: the names its
    bitmap selects among the children of the parent field, each after the
    parent's name and a dot. *)
Definition compoundNames (allFields : list AvroField) (entry : string * string)
  : Exc (list string) :=
  let parentField := fieldAt allFields (Js.parseInt entry.1) in
  childFields ← getChildFields parentField;
  OK (map (fun fieldName => parentName parentField +:+ "." +:+ fieldName)
          (getFieldNamesFromBitmap childFields entry.2)).

Definition compoundEntry (entry : string * string) : string :=
  entry.1 +:+ "-" +:+ entry.2.

(** Values that are not objects. *)
Definition isPrimitive (v : JsValue) : bool := negb (isObject v).

(** A primitive, or a primitive inside one single-key object: what the
    decoder makes of a field of a primitive type, nullable or not. *)
Definition isPlainField (v : JsValue) : bool :=
  match v with
  | JsObject [(_, inner)] => isPrimitive inner
  | _ => isPrimitive v
  end.

Definition unwrapField (v : JsValue) : JsValue :=
  match v with
  | JsObject [(_, inner)] => inner
  | _ => v
  end.

(** The request the handler writes at a batch boundary. *)
Definition reRequest (topic : string) : FetchRequest :=
  {| topicName := topic; numRequested := MAX_EVENT_BATCH_SIZE;
     replayPreset := None; fr_replayId := None |}.

(** What the ["data"] handler may change between two states: it appends to
    the log of the emitter and to the stream of its topic, and touches
    neither the topic of the emitter, nor the connection, nor the warnings,
    nor the streams of other topics, nor whether its topic has a stream. *)
Definition handlerFrame (st st' : Engine) : Prop :=
  em_topicName (emitter st') = em_topicName (emitter st)
  /\ client (api st') = client (api st)
  /\ warnings (api st') = warnings (api st)
  /\ (forall topic, topic <> em_topicName (emitter st) ->
      subscriptions (api st') !! topic = subscriptions (api st) !! topic)
  /\ (is_Some (subscriptions (api st') !! em_topicName (emitter st))
      <-> is_Some (subscriptions (api st) !! em_topicName (emitter st)))
  /\ emitted (emitter st) `prefix_of` emitted (emitter st')
  /\ written (em_topicName (emitter st)) (api st)
     `prefix_of` written (em_topicName (emitter st)) (api st').

(** An entry of a compound bitmap list without a dash in its parts. *)
Definition dashFree (entry : string * string) : Prop :=
  Js.includes "-" entry.1 = false /\ Js.includes "-" entry.2 = false.

(** Example decoder: an empty buffer is a change event of the example
    schema, a buffer of one byte the same event with a compound entry that
    names no field, anything else is not decodable. *)
Definition exampleHeader (diff : list JsValue) : JsValue :=
  JsObject [("entityName", JsObject [("string", JsString "Account")]);
            ("nulledFields", JsArray []);
            ("diffFields", JsArray diff);
            ("changedFields", JsArray [JsString "0x05"])].

Definition exampleFromBuffer (schema : Schema) (buf : Buffer) : Exc JsValue :=
  match buf with
  | [] => OK (JsObject [("ChangeEventHeader", exampleHeader []);
                        ("Name", JsObject [("string", JsString "Acme")])])
  | [_] => OK (JsObject [("ChangeEventHeader",
                          exampleHeader [JsString "0x00"; JsString "9-0x01"]);
                         ("Name", JsObject [("string", JsString "Acme")])])
  | _ => Throw (Error "truncated" None)
  end.

Definition changeEvent (data : Buffer) (low : byte) : ConsumerEvent :=
  {| event := Some {| pe_id := "id"; schemaId := "s1"; payload := data |};
     replayId := replayBytes low |}.

(* ===================================================================== *)
(** * Properties *)
(* ===================================================================== *)

(** ** Strings *)

(** Case analysis on the 256 characters, for facts decided by evaluation. *)
Ltac ascii_cases c H :=
  destruct c as [[] [] [] [] [] [] [] []]; try discriminate H.

Lemma append_cons (a : ascii) (s1 s2 : string) :
  String a s1 +:+ s2 = String a (s1 +:+ s2).
Proof. reflexivity. Qed.

Lemma append_empty_l (s : string) : "" +:+ s = s.
Proof. reflexivity. Qed.

Lemma append_assoc (s1 s2 s3 : string) : (s1 +:+ s2) +:+ s3 = s1 +:+ (s2 +:+ s3).
Proof.
  induction s1 as [|a s1 IH]; [reflexivity |].
  now rewrite !append_cons, IH.
Qed.

Lemma chars_append (s1 s2 : string) : Js.chars (s1 +:+ s2) = Js.chars s1 ++ Js.chars s2.
Proof.
  induction s1 as [|a s1 IH]; [reflexivity |].
  rewrite append_cons. simpl. now rewrite IH.
Qed.

Lemma chars_length (s : string) : length (Js.chars s) = String.length s.
Proof. induction s as [|a s IH]; simpl; [reflexivity | now rewrite IH]. Qed.

Lemma replaceAll_append (c : ascii) (by_ s1 s2 : string) :
  Js.replaceAll c by_ (s1 +:+ s2) = Js.replaceAll c by_ s1 +:+ Js.replaceAll c by_ s2.
Proof.
  induction s1 as [|a s1 IH]; [reflexivity |].
  rewrite append_cons. simpl.
  destruct (Ascii.eqb a c); rewrite IH; [now rewrite append_assoc | reflexivity].
Qed.

(** ** [hexToBin] works character by character *)

Lemma hexToBin_prefix (p q : ascii) (s : string) :
  hexToBin (String p (String q s)) = hexToBin ("0x" +:+ s).
Proof. reflexivity. Qed.

Lemma hexToBin_append (s1 s2 : string) :
  hexToBin ("0x" +:+ s1 +:+ s2) = hexToBin ("0x" +:+ s1) +:+ hexToBin ("0x" +:+ s2).
Proof.
  unfold hexToBin. rewrite !append_cons, !append_empty_l. simpl Js.substringFrom.
  now rewrite !replaceAll_append.
Qed.

Lemma hexToBin_cons (c : ascii) (s : string) :
  hexToBin ("0x" +:+ String c s) = nibble c +:+ hexToBin ("0x" +:+ s).
Proof.
  change (String c s) with (String c "" +:+ s).
  now rewrite hexToBin_append.
Qed.

Lemma hexToBin_empty : hexToBin "0x" = "".
Proof. reflexivity. Qed.

Lemma nibble_upper (c : ascii) :
  isUpperHex c = true ->
  exists v, hexDigitValue c = Some v /\ Js.chars (nibble c) = map bitChar (fourBits v).
Proof.
  intros H. ascii_cases c H; eexists; split; reflexivity.
Qed.



(** ** The scan of the reversed bit string *)

Lemma scanBits_nil_r (binValue : list ascii) : scanBits binValue [] = [].
Proof. now destruct binValue. Qed.

Lemma scanBits_app (l1 l2 : list ascii) (fields : list AvroField) :
  scanBits (l1 ++ l2) fields = scanBits l1 fields ++ scanBits l2 (drop (length l1) fields).
Proof.
  revert fields. induction l1 as [|b l1 IH]; intros fields; [reflexivity |].
  destruct fields as [|f fields]; simpl.
  - now rewrite scanBits_nil_r.
  - now rewrite IH, app_assoc.
Qed.

Lemma omap_seq_shift {A} (f : nat -> option A) (s n : nat) :
  omap f (seq (S s) n) = omap (fun i => f (S i)) (seq s n).
Proof.
  revert s. induction n as [|n IH]; intros s; [reflexivity |].
  simpl. now rewrite IH.
Qed.

Lemma namesAtSetBits_cons (fields : list AvroField) (b : bool) (bits : list bool) :
  namesAtSetBits fields (b :: bits) =
  match b, fields with
  | true, f :: _ => [getName f]
  | _, _ => []
  end ++ namesAtSetBits (tail fields) bits.
Proof.
  unfold namesAtSetBits. cbn [length seq omap list_omap].
  rewrite omap_seq_shift.
  destruct fields as [|f fields]; destruct b; reflexivity.
Qed.

Lemma scanBits_bits (bits : list bool) (fields : list AvroField) :
  scanBits (map bitChar bits) fields = namesAtSetBits fields bits.
Proof.
  revert fields. induction bits as [|b bits IH]; intros fields.
  - now destruct fields.
  - rewrite namesAtSetBits_cons. destruct fields as [|f fields].
    + rewrite scanBits_nil_r, <- IH, scanBits_nil_r. now destruct b.
    + simpl. rewrite IH. now destruct b.
Qed.


Lemma substringFrom_prefix (digits : string) : Js.substringFrom 2 ("0x" +:+ digits) = digits.
Proof. reflexivity. Qed.

Lemma hexToBin_bits (digits : string) :
  allChars isUpperHex digits = true ->
  exists bits, hexToBits digits = Some bits /\
               Js.chars (hexToBin ("0x" +:+ digits)) = map bitChar bits.
Proof.
  induction digits as [|c digits IH]; intros H.
  - exists []. split; reflexivity.
  - simpl in H. apply andb_prop in H as [Hc Hd].
    destruct (IH Hd) as (bits & Hbits & Hchars).
    destruct (nibble_upper c Hc) as (v & Hv & Hn).
    exists (fourBits v ++ bits). split.
    + simpl. rewrite Hv. simpl. rewrite Hbits. reflexivity.
    + rewrite hexToBin_cons, chars_append, Hn, Hchars, map_app. reflexivity.
Qed.

(** ** Top-level bitmaps *)

(** C5 (amended). For every ordered field list and every bitmap made of the
    prefix [0x] followed by upper-case hexadecimal digits (0-9, A-F),
    [getFieldNamesFromBitmap] returns what the specification describes: each
    digit becomes its 4-bit binary form, the bits are concatenated and
    reversed, and [fields[i].name] is emitted for each position [i] holding
    a 1, positions beyond the field list being ignored. In particular four
    fields [A,B,C,D] and the bitmap [0x05] give exactly [A] and [C]. *)
Theorem top_level_bitmap_upper_hex (fields : list AvroField) (digits : string) :
  allChars isUpperHex digits = true ->
  resolveTopLevelBitmap fields ("0x" +:+ digits)
    = Some (getFieldNamesFromBitmap fields ("0x" +:+ digits))
  /\ (forall a b c d, fields = [a; b; c; d] -> digits = "05" ->
      getFieldNamesFromBitmap fields ("0x" +:+ digits) = [getName a; getName c]).
Proof.
  intros H. split.
  - destruct (hexToBin_bits digits H) as (bits & Hbits & Hchars).
    unfold resolveTopLevelBitmap, getFieldNamesFromBitmap.
    rewrite substringFrom_prefix, Hbits, Hchars, <- map_rev, scanBits_bits.
    reflexivity.
  - intros a b c d -> ->. reflexivity.
Qed.

Lemma top_level_bitmap_upper_hex_witness :
  allChars isUpperHex "05" = true
  /\ resolveTopLevelBitmap exampleFields "0x05" = Some ["A"; "C"].
Proof.
  split; [reflexivity |].
  exact (eq_trans (proj1 (top_level_bitmap_upper_hex exampleFields "05" eq_refl)) eq_refl).
Defined.

(** C5 as stated fails on a bitmap with a lower-case digit: [0x0a] selects
    positions 1 and 3 when each hexadecimal digit is converted, and the code
    returns no name. *)
Lemma top_level_bitmap_lower_case_counterexample :
  resolveTopLevelBitmap exampleFields "0x0a" = Some ["B"; "D"]
  /\ getFieldNamesFromBitmap exampleFields "0x0a" = []
  /\ resolveTopLevelBitmap exampleFields "0x0a"
     <> Some (getFieldNamesFromBitmap exampleFields "0x0a").
Proof. repeat split; [reflexivity .. | discriminate]. Qed.



(** ** Compound bitmaps *)

Lemma chars_string (l : list ascii) : Js.chars (string_of_list_ascii l) = l.
Proof. induction l as [|a l IH]; simpl; [reflexivity | now rewrite IH]. Qed.

Lemma string_chars (s : string) : string_of_list_ascii (Js.chars s) = s.
Proof. induction s as [|a s IH]; simpl; [reflexivity | now rewrite IH]. Qed.

Lemma splitAcc_no_separator (c : ascii) (acc : list ascii) (s : string) :
  Js.includes c s = false ->
  Js.splitAcc c acc s = [string_of_list_ascii (rev acc ++ Js.chars s)].
Proof.
  revert acc. induction s as [|a s IH]; intros acc H; simpl in *.
  - now rewrite app_nil_r.
  - apply orb_false_elim in H as [Ha Hs]. rewrite Ha, (IH _ Hs). simpl.
    now rewrite <- app_assoc.
Qed.

Lemma split_no_separator (c : ascii) (s : string) :
  Js.includes c s = false -> Js.split c s = [s].
Proof.
  intros H. unfold Js.split. rewrite (splitAcc_no_separator c [] s H). simpl.
  now rewrite string_chars.
Qed.

Lemma compoundStep_top_level (allFields : list AvroField) (fieldNames : list string)
    (entry : string) :
  Js.includes "-" entry = false ->
  compoundStep allFields fieldNames entry = OK fieldNames.
Proof. intros H. unfold compoundStep. now rewrite (split_no_separator _ _ H). Qed.

(** C4 (amended). For a field list whose index-1 field [B] has exactly two
    child fields (the fields of the record branch of its type), the
    compound entry [1-0x03], whose child bitmap carries the hexadecimal
    prefix and which follows a top-level entry, resolves to the two child
    names, each prefixed with the name of [B] and a dot; they come after the
    names of the top-level entry. *)
Theorem compound_bitmap_two_children
    (allFields : list AvroField) (top : string) (B c0 c1 : AvroField) :
  allFields !! 1%nat = Some B ->
  getChildFields (Some B) = OK [c0; c1] ->
  Js.includes "-" top = false ->
  parseFieldBitmaps allFields [top; "1-0x03"]
    = OK ((if Js.startsWith "0x" top then getFieldNamesFromBitmap allFields top else [])
          ++ [getName B +:+ "." +:+ getName c0; getName B +:+ "." +:+ getName c1]).
Proof.
  intros HB Hchildren Htop.
  unfold parseFieldBitmaps.
  change ((1 <? Z.of_nat (length [top; "1-0x03"]))
          && Js.includes "-" (List.last [top; "1-0x03"] "")) with true.
  cbn [forEachExc]. rewrite (compoundStep_top_level _ _ _ Htop).
  unfold compoundStep.
  change (Js.split "-" "1-0x03") with ["1"; "0x03"]. cbv beta iota zeta.
  change (fieldAt allFields (Js.parseInt "1")) with (allFields !! 1%nat).
  rewrite HB, Hchildren. reflexivity.
Qed.

Lemma compound_bitmap_two_children_witness :
  exampleFields !! 1%nat = Some fieldB
  /\ getChildFields (Some fieldB)
     = OK [Field "c0" (OtherType "string"); Field "c1" (OtherType "string")]
  /\ Js.includes "-" "0x05" = false
  /\ parseFieldBitmaps exampleFields ["0x05"; "1-0x03"] = OK ["A"; "C"; "B.c0"; "B.c1"].
Proof.
  split; [reflexivity |]. split; [reflexivity |]. split; [reflexivity |].
  exact (eq_trans (compound_bitmap_two_children exampleFields "0x05" fieldB
                     (Field "c0" (OtherType "string")) (Field "c1" (OtherType "string"))
                     eq_refl eq_refl eq_refl) eq_refl).
Defined.

(** C4 as stated: the entry [1-03], without the prefix, resolves to no
    child name, alone or after a top-level entry; [hexToBin] drops the two
    characters [03] as if they were the prefix. *)
Lemma compound_bitmap_without_prefix_counterexample :
  getChildFields (exampleFields !! 1%nat)
    = OK [Field "c0" (OtherType "string"); Field "c1" (OtherType "string")]
  /\ parseFieldBitmaps exampleFields ["0x00"; "1-03"] = OK []
  /\ parseFieldBitmaps exampleFields ["1-03"] = OK []
  /\ parseFieldBitmaps exampleFields ["0x00"; "1-03"] <> OK ["B.c0"; "B.c1"].
Proof. repeat split; [reflexivity .. | discriminate]. Qed.

(** ** Replay-id codec *)

Lemma byteToZ_range (b : byte) : 0 <= byteToZ b < 256.
Proof. unfold byteToZ. pose proof (Byte.to_N_bounded b). lia. Qed.

Lemma byteToZ_byteOfZ (z : Z) : byteToZ (byteOfZ z) = z mod 256.
Proof.
  unfold byteToZ, byteOfZ.
  pose proof (Z.mod_pos_bound z 256 eq_refl) as Hr.
  destruct (Byte.of_N (Z.to_N (z mod 256))) as [b|] eqn:E.
  - apply Byte.to_of_N in E. simpl. rewrite E. lia.
  - apply Byte.of_N_None_iff in E. lia.
Qed.

Lemma readBigUInt64BE_write (value : Z) :
  0 <= value < 2 ^ 64 ->
  (buf ← writeBigUInt64BE value; readBigUInt64BE buf) = OK value.
Proof.
  intros Hv. unfold writeBigUInt64BE.
  replace ((value <? 0) || (2 ^ 64 - 1 <? value)) with false
    by (symmetry; apply orb_false_intro; lia).
  cbn [mbind Exc_bind readBigUInt64BE]. f_equal.
  rewrite !byteToZ_byteOfZ.
  change 0xffffffff with (Z.ones 32). rewrite !Z.land_ones by lia.
  rewrite !Z.shiftr_div_pow2, Z.shiftl_mul_pow2 by lia.
  change (2 ^ 64) with 18446744073709551616 in Hv.
  change (2 ^ 32) with 4294967296. change (2 ^ 24) with 16777216.
  change (2 ^ 16) with 65536. change (2 ^ 8) with 256.
  set (hi := value / 4294967296 mod 4294967296).
  set (lo := value mod 4294967296).
  assert (Hhi : 0 <= hi < 4294967296) by (apply Z.mod_pos_bound; lia).
  assert (Hlo : 0 <= lo < 4294967296) by (apply Z.mod_pos_bound; lia).
  assert (Hword : forall w, 0 <= w < 4294967296 ->
            (w / 16777216) mod 256 * 16777216 + (w / 65536) mod 256 * 65536
            + (w / 256) mod 256 * 256 + w mod 256 = w).
  { intros w Hw. Z.div_mod_to_equations. lia. }
  rewrite (Hword hi Hhi), (Hword lo Hlo).
  subst hi lo. Z.div_mod_to_equations. lia.
Qed.

Lemma roundToDouble_exact (x : Z) :
  0 <= x -> isBinary64Integer x = true -> roundToDouble x = x.
Proof.
  intros Hx Hb. unfold roundToDouble.
  destruct (x <? 2 ^ 53) eqn:E; [reflexivity |].
  apply Z.ltb_ge in E. unfold isBinary64Integer in Hb.
  rewrite Z.abs_eq in Hb by lia.
  assert (Hlog : 53 <= Z.log2 x) by (apply Z.log2_le_pow2; lia).
  rewrite Z.max_r in Hb by lia. apply Z.eqb_eq in Hb.
  set (e := Z.log2 x - 52) in *.
  assert (He : 0 < e) by (unfold e; lia).
  assert (Hq : Z.shiftl (Z.shiftr x e) e = x).
  { rewrite Z.shiftr_div_pow2, Z.shiftl_mul_pow2 by lia.
    pose proof (Z.div_mod x (2 ^ e)) as Hdm.
    assert (0 < 2 ^ e) by (apply Z.pow_pos_nonneg; lia). lia. }
  rewrite Hq, Z.sub_diag.
  assert (Hhalf : 0 < 2 ^ (e - 1)) by (apply Z.pow_pos_nonneg; lia).
  now replace (0 <? 2 ^ (e - 1)) with true by (symmetry; apply Z.ltb_lt; lia).
Qed.

Lemma isBinary64Integer_small (x : Z) : 0 <= x < 2 ^ 53 -> isBinary64Integer x = true.
Proof.
  intros Hx. unfold isBinary64Integer. rewrite Z.abs_eq by lia.
  assert (Z.log2 x < 53).
  { destruct (Z.eq_dec x 0) as [-> | Hne]; [simpl; lia |].
    apply Z.log2_lt_pow2; lia. }
  rewrite Z.max_l by lia. simpl. rewrite Z.mod_1_r. reflexivity.
Qed.

Lemma NumberOfBigInt_exact (x : Z) :
  0 <= x -> isBinary64Integer x = true -> NumberOfBigInt x = x.
Proof.
  intros Hx Hb. unfold NumberOfBigInt. rewrite Z.abs_eq by lia.
  rewrite (roundToDouble_exact x Hx Hb).
  destruct (Z.eq_dec x 0) as [-> | Hne]; [reflexivity |].
  rewrite Z.sgn_pos by lia. lia.
Qed.

(** C2 (amended). For every integer [x] in [[0, 2^63)] that is the value of
    a JavaScript number, that is, has at most 53 significant bits (every
    integer below [2^53] has), decoding the encoding of [x] gives [x]. *)
Theorem replayId_round_trip (x : Z) :
  0 <= x < 2 ^ 63 ->
  isBinary64Integer x = true ->
  (buf ← encodeReplayId x; decodeReplayId buf) = OK x.
Proof.
  intros Hx Hb. unfold encodeReplayId, decodeReplayId.
  assert (Hrw : (buf ← writeBigUInt64BE x; readBigUInt64BE buf) = OK x).
  { apply readBigUInt64BE_write. change (2 ^ 63) with 9223372036854775808 in Hx.
    change (2 ^ 64) with 18446744073709551616. lia. }
  destruct (writeBigUInt64BE x) as [buf|e]; [| discriminate Hrw].
  cbn [mbind Exc_bind] in *. rewrite Hrw. cbn [mbind Exc_bind].
  now rewrite (NumberOfBigInt_exact x (proj1 Hx) Hb).
Qed.

Lemma replayId_round_trip_witness :
  0 <= 2 ^ 60 + 1024 < 2 ^ 63
  /\ isBinary64Integer (2 ^ 60 + 1024) = true
  /\ (buf ← encodeReplayId (2 ^ 60 + 1024); decodeReplayId buf) = OK (2 ^ 60 + 1024).
Proof.
  split; [split; [discriminate | reflexivity] |]. split; [reflexivity |].
  apply replayId_round_trip; [split; [discriminate | reflexivity] | reflexivity].
Defined.

(** C2 as stated fails at [2^53 + 1], which is in [[0, 2^63)]: it is
    encoded exactly and decoded to the nearest number, [2^53]; passed as a
    number it is [2^53] already, and comes back as [2^53]. *)
Lemma replayId_round_trip_counterexample :
  0 <= 2 ^ 53 + 1 < 2 ^ 63
  /\ (buf ← encodeReplayId (2 ^ 53 + 1); decodeReplayId buf) = OK (2 ^ 53)
  /\ (buf ← encodeReplayId (2 ^ 53 + 1); decodeReplayId buf) <> OK (2 ^ 53 + 1)
  /\ (buf ← encodeReplayId (NumberOfBigInt (2 ^ 53 + 1)); decodeReplayId buf)
     <> OK (2 ^ 53 + 1).
Proof.
  split; [split; [discriminate | reflexivity] |].
  split; [reflexivity |]. split; discriminate.
Qed.

Lemma decodeReplayId_eight (b0 b1 b2 b3 b4 b5 b6 b7 : byte) (rest : Buffer) :
  decodeReplayId (b0 :: b1 :: b2 :: b3 :: b4 :: b5 :: b6 :: b7 :: rest)
  = OK (NumberOfBigInt (bigEndian [b0; b1; b2; b3; b4; b5; b6; b7])).
Proof.
  unfold decodeReplayId, readBigUInt64BE, bigEndian.
  cbn [mbind Exc_bind fold_left]. do 2 f_equal.
  rewrite Z.shiftl_mul_pow2 by lia.
  change (2 ^ 32) with 4294967296. change (2 ^ 24) with 16777216.
  change (2 ^ 16) with 65536. change (2 ^ 8) with 256. lia.
Qed.

Lemma bigEndian_nonneg (bytes : list byte) : 0 <= bigEndian bytes.
Proof.
  unfold bigEndian.
  assert (H : forall acc, 0 <= acc ->
            0 <= fold_left (fun acc b => acc * 256 + byteToZ b) bytes acc).
  { induction bytes as [|b bytes IH]; intros acc Hacc; simpl; [exact Hacc |].
    apply IH. pose proof (byteToZ_range b). lia. }
  apply H. lia.
Qed.

Lemma decodeReplayId_at_least_eight (buf : Buffer) :
  (8 <= length buf)%nat ->
  decodeReplayId buf = OK (NumberOfBigInt (bigEndian (take 8 buf))).
Proof.
  intros Hlen.
  do 8 (destruct buf as [|? buf]; [simpl in Hlen; lia |]).
  now rewrite decodeReplayId_eight.
Qed.

(** C8 (amended). [decodeReplayId] succeeds on every buffer of at least 8
    bytes and looks at the first 8 only: it returns the JavaScript number
    nearest to their big-endian unsigned value, which is that value when it
    is below [2^53]. It fails, with a [RangeError], exactly on the buffers
    shorter than 8 bytes. *)
Theorem decodeReplayId_by_length (buf : Buffer) :
  ((8 <= length buf)%nat ->
     decodeReplayId buf = OK (NumberOfBigInt (bigEndian (take 8 buf)))
     /\ (bigEndian (take 8 buf) < 2 ^ 53 ->
         decodeReplayId buf = OK (bigEndian (take 8 buf))))
  /\ ((length buf < 8)%nat ->
      exists message, decodeReplayId buf = Throw (RangeError message)).
Proof.
  split.
  - intros Hlen.
    rewrite (decodeReplayId_at_least_eight buf Hlen). split; [reflexivity |].
    intros Hsmall. f_equal. apply NumberOfBigInt_exact.
    + apply bigEndian_nonneg.
    + apply isBinary64Integer_small. split; [apply bigEndian_nonneg | exact Hsmall].
  - intros Hlen.
    do 8 (destruct buf as [|? buf]; [eexists; reflexivity |]).
    simpl in Hlen. lia.
Qed.

Lemma decodeReplayId_by_length_witness :
  (8 <= length [x00; x00; x00; x00; x00; x00; x01; x02; xff])%nat
  /\ decodeReplayId [x00; x00; x00; x00; x00; x00; x01; x02; xff] = OK 258
  /\ (length [x01; x02] < 8)%nat
  /\ exists message, decodeReplayId [x01; x02] = Throw (RangeError message).
Proof.
  split; [simpl; lia |]. split.
  - refine (proj2 (proj1 (decodeReplayId_by_length _) _) _); [simpl; lia | reflexivity].
  - split; [simpl; lia |].
    apply (proj2 (decodeReplayId_by_length [x01; x02])). simpl; lia.
Defined.

(** C8 as stated fails on a buffer longer than 8 bytes, which is decoded
    instead of rejected, and on an 8-byte buffer whose value is not a
    binary64 value, where the result is not the value. *)
Lemma decodeReplayId_longer_buffer_counterexample :
  length [x00; x00; x00; x00; x00; x00; x00; x01; xff] = 9%nat
  /\ decodeReplayId [x00; x00; x00; x00; x00; x00; x00; x01; xff] = OK 1
  /\ bigEndian [xff; xff; xff; xff; xff; xff; xff; xff] = 2 ^ 64 - 1
  /\ decodeReplayId [xff; xff; xff; xff; xff; xff; xff; xff] = OK (2 ^ 64).
Proof. repeat split. Qed.

(** ** The number of requested events *)

Lemma isSafeInteger_integer (n : JsNumber) : isSafeInteger n = true -> isIntegerNumber n = true.
Proof.
  destruct n as [| |q]; simpl; try discriminate.
  intros H. now apply andb_prop in H as [H _].
Qed.

Lemma ltInt_integer (q : Q) (k : Z) :
  isInteger q = true -> ltInt (JsFinite q) k = (integerValue q <? k).
Proof.
  unfold isInteger, ltInt, integerValue. intros H. apply Z.eqb_eq in H.
  destruct q as [num den]; simpl in *.
  pose proof (Z.div_mod num (Zpos den)) as Hdm.
  apply eq_true_iff_eq. rewrite !Z.ltb_lt. nia.
Qed.

Lemma gtInt_integer (q : Q) (k : Z) :
  isInteger q = true -> gtInt (JsFinite q) k = (k <? integerValue q).
Proof.
  unfold isInteger, gtInt, integerValue. intros H. apply Z.eqb_eq in H.
  destruct q as [num den]; simpl in *.
  pose proof (Z.div_mod num (Zpos den)) as Hdm.
  apply eq_true_iff_eq. rewrite !Z.ltb_lt. nia.
Qed.

Lemma checkNumRequested_safe (q : Q) :
  isInteger q = true ->
  1 <= integerValue q <= 2 ^ 53 - 1 ->
  checkNumRequested (JsNum (JsFinite q))
  = OK (false, integerValue q, MAX_EVENT_BATCH_SIZE <? integerValue q).
Proof.
  intros Hq Hrange. unfold checkNumRequested.
  assert (Hsafe : isSafeInteger (JsFinite q) = true).
  { simpl. rewrite Hq. simpl. apply Z.leb_le. lia. }
  rewrite Hsafe, (ltInt_integer q 1 Hq), (gtInt_integer q _ Hq).
  now replace (integerValue q <? 1) with false by (symmetry; apply Z.ltb_ge; lia).
Qed.

(** C9 (amended). On a connected client, [subscribe] treats the number of
    requested events as follows. Absent or null: unbounded mode, requested
    as a batch of the maximum size, 100. A value that is not a number, a
    number that is not an integer, an integer below 1: the call fails and
    leaves the client as it was. A safe integer from 1 to [2^53 - 1]: the
    call succeeds with that count; above 100 a warning is logged, and
    nothing else changes in the outcome. *)
Theorem subscribe_numRequested (r : SubscribeRequest) (c : PubSubApiClient) :
  client c = true ->
  let topic := sr_topicName r in
  let v := sr_numRequested r in
  let written (n : Z) :=
    default [] (subscriptions c !! topic)
    ++ [{| topicName := topic; numRequested := n;
           replayPreset := sr_replayPreset r; fr_replayId := sr_replayId r |}] in
  (v = JsNull \/ v = JsUndefined ->
     subscribe r c
     = (OK {| eventEmitter := newPubSubEventEmitter topic MAX_EVENT_BATCH_SIZE;
              isInfiniteEventRequest := true |},
        {| client := true;
           subscriptions := <[topic := written 100]> (subscriptions c);
           warnings := warnings c |}))
  /\ (typeofIsNumber v = false -> v <> JsNull -> v <> JsUndefined ->
      exists e, subscribe r c = (Throw e, c))
  /\ (forall n, v = JsNum n -> isIntegerNumber n = false \/ ltInt n 1 = true ->
      exists e, subscribe r c = (Throw e, c))
  /\ (forall q, v = JsNum (JsFinite q) -> isInteger q = true ->
      1 <= integerValue q <= 2 ^ 53 - 1 ->
      subscribe r c
      = (OK {| eventEmitter := newPubSubEventEmitter topic (integerValue q);
               isInfiniteEventRequest := false |},
         {| client := true;
            subscriptions := <[topic := written (integerValue q)]> (subscriptions c);
            warnings := warnings c
                        ++ (if 100 <? integerValue q then [exceedsBatchWarning] else []) |})).
Proof.
  intros Hc topic v written. subst topic v written. unfold subscribe.
  repeat split.
  - intros [-> | ->]; simpl; rewrite Hc; reflexivity.
  - intros Hnum Hnull Hundef.
    destruct (sr_numRequested r); try discriminate Hnum; try congruence;
      eexists; reflexivity.
  - intros n -> [Hi | Hlt]; unfold checkNumRequested.
    + destruct (isSafeInteger n) eqn:E.
      * apply isSafeInteger_integer in E. congruence.
      * eexists; reflexivity.
    + rewrite Hlt, orb_true_r. eexists; reflexivity.
  - intros q -> Hq Hrange. rewrite (checkNumRequested_safe q Hq Hrange).
    unfold MAX_EVENT_BATCH_SIZE.
    destruct (100 <? integerValue q); unfold warn; simpl; rewrite Hc; simpl.
    + reflexivity.
    + now rewrite app_nil_r.
Qed.

Lemma subscribe_numRequested_witness :
  client connectedClient = true
  /\ 1 <= integerValue (inject_Z 150) <= 2 ^ 53 - 1
  /\ fst (subscribe (requestFor "/event/T" (JsNum (JsFinite (inject_Z 150)))) connectedClient)
     = OK {| eventEmitter := newPubSubEventEmitter "/event/T" 150;
             isInfiniteEventRequest := false |}
  /\ warnings (snd (subscribe (requestFor "/event/T" (JsNum (JsFinite (inject_Z 150))))
                              connectedClient))
     = [exceedsBatchWarning].
Proof.
  assert (Hrange : 1 <= integerValue (inject_Z 150) <= 2 ^ 53 - 1).
  { split; [discriminate | discriminate]. }
  pose proof (proj2 (proj2 (proj2
    (subscribe_numRequested (requestFor "/event/T" (JsNum (JsFinite (inject_Z 150))))
       connectedClient eq_refl))) (inject_Z 150) eq_refl eq_refl Hrange) as H.
  split; [reflexivity |]. split; [exact Hrange |].
  split; [exact (f_equal fst H) | exact (f_equal (fun p => warnings (snd p)) H)].
Defined.

(** C9 as stated fails at [2^53]: an integer from 1 up that is not a safe
    integer, on which the call fails. *)
Lemma subscribe_unsafe_integer_counterexample :
  isInteger (inject_Z (2 ^ 53)) = true
  /\ 1 <= integerValue (inject_Z (2 ^ 53))
  /\ exists e,
       subscribe (requestFor "/event/T" (JsNum (JsFinite (inject_Z (2 ^ 53))))) connectedClient
       = (Throw e, connectedClient).
Proof.
  split; [reflexivity |]. split; [discriminate |]. eexists. reflexivity.
Qed.

(** ** The handlers of a stream *)

Lemma subscribe_success (r : SubscribeRequest) (c c' : PubSubApiClient) (sub : Subscription) :
  subscribe r c = (OK sub, c') ->
  exists isInfinite n warned,
    checkNumRequested (sr_numRequested r) = OK (isInfinite, n, warned)
    /\ sub = {| eventEmitter := newPubSubEventEmitter (sr_topicName r) n;
                isInfiniteEventRequest := isInfinite |}
    /\ exists written, subscriptions c' !! sr_topicName r = Some written.
Proof.
  unfold subscribe. intros H.
  destruct (checkNumRequested (sr_numRequested r)) as [[[isInfinite n] warned]|e];
    [| discriminate H].
  exists isInfinite, n, warned. split; [reflexivity |].
  destruct (negb (client (if warned then _ else c))); [discriminate H |].
  injection H as <- <-. split; [reflexivity |].
  eexists. simpl. apply lookup_insert_eq.
Qed.

Section HandlerProperties.

Variable getEventSchemaFromId : string -> Exc Schema.
Variable parseEvent : Schema -> ConsumerEvent -> Exc ParsedEvent.

Let signalOf := eventSignal getEventSchemaFromId parseEvent.
Let step := onEvent getEventSchemaFromId parseEvent.

Lemma eventSignal_reportsEvent (latest : Z) (ev : ConsumerEvent) :
  reportsEvent (signalOf latest ev) = true.
Proof.
  unfold signalOf, eventSignal, parseError.
  now destruct (tryParse getEventSchemaFromId parseEvent ev).
Qed.

Lemma eventSignal_not_lastevent (latest : Z) (ev : ConsumerEvent) :
  isLastevent (signalOf latest ev) = false.
Proof.
  unfold signalOf, eventSignal.
  now destruct (tryParse getEventSchemaFromId parseEvent ev).
Qed.

(** Before the requested count is reached an iteration only emits. *)
Lemma onEvent_below (isInfinite : bool) (latest : Z) (st : Engine) (ev : ConsumerEvent) :
  receivedEventCount (emitter st) + 1 <> requestedEventCount (emitter st) ->
  step isInfinite latest st ev = emitOn (signalOf latest ev) st.
Proof.
  intros Hne. unfold step, onEvent, handleLastRequested. fold (signalOf latest ev).
  cbn [emitOn emitter emit receivedEventCount requestedEventCount].
  rewrite eventSignal_reportsEvent.
  now replace (_ =? _) with false by (symmetry; apply Z.eqb_neq; exact Hne).
Qed.

Lemma fold_onEvent_below (isInfinite : bool) (latest : Z) (evs : list ConsumerEvent)
    (st : Engine) :
  receivedEventCount (emitter st) + Z.of_nat (length evs) < requestedEventCount (emitter st) ->
  fold_left (step isInfinite latest) evs st
  = {| emitter :=
         {| em_topicName := em_topicName (emitter st);
            requestedEventCount := requestedEventCount (emitter st);
            receivedEventCount := receivedEventCount (emitter st) + Z.of_nat (length evs);
            emitted := emitted (emitter st) ++ map (signalOf latest) evs |};
       api := api st |}.
Proof.
  revert st. induction evs as [|ev evs IH]; intros st Hlt.
  - destruct st as [[topic requested received log] c]. simpl.
    now rewrite Z.add_0_r, app_nil_r.
  - cbn [fold_left]. rewrite onEvent_below by (cbn [length] in Hlt; lia).
    rewrite IH.
    + unfold emitOn, emit. cbn [emitter api em_topicName requestedEventCount
                                receivedEventCount emitted].
      rewrite eventSignal_reportsEvent, <- app_assoc. cbn [length map app].
      do 2 f_equal. lia.
    + unfold emitOn, emit. cbn [emitter api em_topicName requestedEventCount
                                receivedEventCount emitted].
      rewrite eventSignal_reportsEvent. cbn [length] in Hlt. lia.
Qed.

(** The event that completes the requested count triggers the check. *)
Lemma fold_onEvent_complete (isInfinite : bool) (latest : Z)
    (front : list ConsumerEvent) (lst : ConsumerEvent) (st : Engine) :
  receivedEventCount (emitter st) + Z.of_nat (length front) + 1
    = requestedEventCount (emitter st) ->
  fold_left (step isInfinite latest) (front ++ [lst]) st
  = handleLastRequested isInfinite
      {| emitter :=
           {| em_topicName := em_topicName (emitter st);
              requestedEventCount := requestedEventCount (emitter st);
              receivedEventCount := requestedEventCount (emitter st);
              emitted := emitted (emitter st) ++ map (signalOf latest) (front ++ [lst]) |};
         api := api st |}.
Proof.
  intros Heq. rewrite fold_left_app. cbn [fold_left].
  rewrite fold_onEvent_below by lia.
  unfold step, onEvent. fold (signalOf latest lst). f_equal.
  unfold emitOn, emit. cbn [emitter api em_topicName requestedEventCount
                              receivedEventCount emitted].
  rewrite eventSignal_reportsEvent, map_app, <- app_assoc. cbn [map].
  do 2 f_equal. lia.
Qed.

Lemma countSignals_app (p : Signal -> bool) (l1 l2 : list Signal) :
  countSignals p (l1 ++ l2) = (countSignals p l1 + countSignals p l2)%nat.
Proof. unfold countSignals. now rewrite List.filter_app, length_app. Qed.

Lemma countSignals_lastevent_events (latest : Z) (evs : list ConsumerEvent) :
  countSignals isLastevent (map (signalOf latest) evs) = 0%nat.
Proof.
  unfold countSignals. induction evs as [|ev evs IH]; [reflexivity |].
  cbn [map List.filter]. now rewrite eventSignal_not_lastevent.
Qed.

(** The signals that report events grow by one per iteration. *)
Lemma onEvent_reported (isInfinite : bool) (latest : Z) (st : Engine) (ev : ConsumerEvent) :
  List.filter reportsEvent (emitted (emitter (step isInfinite latest st ev)))
  = List.filter reportsEvent (emitted (emitter st)) ++ [signalOf latest ev].
Proof.
  assert (Hemit : List.filter reportsEvent
                    (emitted (emitter (emitOn (signalOf latest ev) st)))
                  = List.filter reportsEvent (emitted (emitter st)) ++ [signalOf latest ev]).
  { cbn [emitOn emitter emit emitted]. rewrite List.filter_app. cbn [List.filter].
    now rewrite eventSignal_reportsEvent. }
  unfold step, onEvent, handleLastRequested. fold (signalOf latest ev).
  destruct (_ =? _); [| exact Hemit].
  destruct isInfinite.
  - unfold requestAdditionalEvents.
    destruct (subscriptions _ !! _); exact Hemit.
  - cbn [emitOn emitter emit emitted]. rewrite List.filter_app. cbn [List.filter].
    rewrite app_nil_r. exact Hemit.
Qed.

Lemma fold_onEvent_reported (isInfinite : bool) (latest : Z) (evs : list ConsumerEvent)
    (st : Engine) :
  List.filter reportsEvent (emitted (emitter (fold_left (step isInfinite latest) evs st)))
  = List.filter reportsEvent (emitted (emitter st)) ++ map (signalOf latest) evs.
Proof.
  revert st. induction evs as [|ev evs IH]; intros st.
  - simpl. now rewrite app_nil_r.
  - cbn [fold_left map]. rewrite IH, onEvent_reported, <- app_assoc. reflexivity.
Qed.

(** C1. Bounded mode: after a subscription for 3 events, a message with
    three events makes the handler emit exactly one [lastevent], as the
    last signal, and write nothing more to the stream. Unbounded mode:
    after a subscription without a count, a message with 100 events makes
    the handler write one new request for 100 events (the maximum batch
    size) to the stream of the topic and leaves the received counter at 0,
    with no [lastevent]. *)
Theorem flow_control_at_requested_count
    (r : SubscribeRequest) (c c' : PubSubApiClient) (sub : Subscription)
    (data : FetchResponse) (evs : list ConsumerEvent) :
  subscribe r c = (OK sub, c') ->
  events data = Some evs ->
  (8 <= length (latestReplayId data))%nat ->
  (sr_numRequested r = JsNum (JsFinite (inject_Z 3)) -> length evs = 3%nat ->
     exists st',
       onData getEventSchemaFromId parseEvent (isInfiniteEventRequest sub) data
              {| emitter := eventEmitter sub; api := c' |} = OK st'
       /\ countSignals isLastevent (emitted (emitter st')) = 1%nat
       /\ List.last (emitted (emitter st')) SigEnd = SigLastevent
       /\ api st' = c')
  /\ (sr_numRequested r = JsNull \/ sr_numRequested r = JsUndefined ->
      length evs = 100%nat ->
      exists st' written,
        onData getEventSchemaFromId parseEvent (isInfiniteEventRequest sub) data
               {| emitter := eventEmitter sub; api := c' |} = OK st'
        /\ subscriptions c' !! sr_topicName r = Some written
        /\ subscriptions (api st')
           = <[sr_topicName r :=
                 written ++ [{| topicName := sr_topicName r;
                                numRequested := MAX_EVENT_BATCH_SIZE;
                                replayPreset := None; fr_replayId := None |}]]>
               (subscriptions c')
        /\ MAX_EVENT_BATCH_SIZE = 100
        /\ receivedEventCount (emitter st') = 0
        /\ requestedEventCount (emitter st') = 100
        /\ countSignals isLastevent (emitted (emitter st')) = 0%nat).
Proof.
  intros Hsub Hevs Hlatest.
  destruct (subscribe_success r c c' sub Hsub)
    as (isInfinite & n & warned & Hcheck & -> & written & Hwritten).
  unfold onData. rewrite (decodeReplayId_at_least_eight _ Hlatest), Hevs.
  cbn [mbind Exc_bind isInfiniteEventRequest eventEmitter].
  set (latest := NumberOfBigInt _).
  split.
  - intros Hn Hlen. rewrite Hn in Hcheck.
    injection Hcheck as <- <- _.
    destruct evs as [|e1 [|e2 [|e3 [|? ?]]]]; try discriminate Hlen.
    eexists. split; [reflexivity |].
    change [e1; e2; e3] with ([e1; e2] ++ [e3]).
    rewrite fold_onEvent_complete by reflexivity.
    unfold handleLastRequested.
    cbn [emitter requestedEventCount receivedEventCount newPubSubEventEmitter].
    rewrite Z.eqb_refl.
    cbn [emitOn emit emitter api emitted app].
    split; [| split; [| reflexivity]].
    + rewrite !countSignals_app, countSignals_lastevent_events. reflexivity.
    + apply last_last.
  - intros Hn Hlen.
    assert (Hc : checkNumRequested (sr_numRequested r) = OK (true, 100, false))
      by (destruct Hn as [-> | ->]; reflexivity).
    rewrite Hc in Hcheck. injection Hcheck as <- <- _.
    destruct evs as [|ev evs _] using rev_ind; [discriminate Hlen |].
    rewrite length_app in Hlen. cbn [length] in Hlen.
    eexists. exists written. split; [reflexivity |].
    rewrite fold_onEvent_complete
      by (cbn [emitter receivedEventCount requestedEventCount newPubSubEventEmitter]; lia).
    unfold handleLastRequested.
    cbn [emitter requestedEventCount receivedEventCount newPubSubEventEmitter].
    rewrite Z.eqb_refl. unfold requestAdditionalEvents, newPubSubEventEmitter.
    cbn [emitter api em_topicName]. rewrite Hwritten.
    cbn [emitter api _resetEventCount subscriptions receivedEventCount
         requestedEventCount emitted app].
    repeat split. apply countSignals_lastevent_events.
Qed.

(** C6, on the code: a message that carries zero events as an empty
    [events] array, with a well-formed latest replay id, takes the branch
    of the loop and leaves the emitter and the client as they were: no
    [keepalive] is emitted. *)
Theorem empty_events_array_emits_nothing
    (isInfinite : bool) (data : FetchResponse) (st : Engine) :
  events data = Some [] ->
  (8 <= length (latestReplayId data))%nat ->
  onData getEventSchemaFromId parseEvent isInfinite data st = OK st.
Proof.
  intros Hevs Hlatest. unfold onData.
  now rewrite (decodeReplayId_at_least_eight _ Hlatest), Hevs.
Qed.

(** A message without an [events] field is the keepalive of the handler:
    one [keepalive] signal carrying the decoded latest replay id, and no
    [data] signal. *)
Lemma absent_events_emit_keepalive (isInfinite : bool) (data : FetchResponse)
    (st : Engine) (latest : Z) :
  events data = None ->
  decodeReplayId (latestReplayId data) = OK latest ->
  exists st',
    onData getEventSchemaFromId parseEvent isInfinite data st = OK st'
    /\ emitted (emitter st')
       = emitted (emitter st)
         ++ [SigKeepalive {| ka_latestReplayId := latest; ka_rpcId := rpcId data;
                            ka_pendingNumRequested := pendingNumRequested data |}]
    /\ countSignals isKeepalive (emitted (emitter st'))
       = S (countSignals isKeepalive (emitted (emitter st)))
    /\ countSignals isData (emitted (emitter st'))
       = countSignals isData (emitted (emitter st))
    /\ api st' = api st.
Proof.
  intros Hnone Hlatest. unfold onData. rewrite Hlatest, Hnone.
  eexists. split; [reflexivity |]. cbn [emitOn emitter emit emitted api].
  rewrite !countSignals_app. cbn [countSignals List.filter isKeepalive isData length].
  repeat split; lia.
Qed.


End HandlerProperties.

(** ** Flattening *)

Lemma flatten_object (props : list (string * JsValue)) :
  flattenSinglePropertyObjects (JsObject props)
  = JsObject (map (fun kv => (kv.1, flattenEntry kv.1 kv.2)) props).
Proof.
  cbn [flattenSinglePropertyObjects]. f_equal. apply map_ext. intros [key value].
  cbn [fst snd]. unfold flattenEntry. f_equal.
  destruct (String.eqb key ChangeEventHeader); [reflexivity |].
  destruct value as [| | | | |[|? [|? ?]]|[|[? ?] [|? ?]]]; reflexivity.
Qed.

Lemma getProp_map (f : string -> JsValue -> JsValue) (key : string)
    (props : list (string * JsValue)) :
  getProp key (map (fun kv => (kv.1, f kv.1 kv.2)) props)
  = match getProp key props with
    | Some value => Some (f key value)
    | None => None
    end.
Proof.
  induction props as [|[k value] props IH]; [reflexivity |].
  cbn [map getProp fst snd]. destruct (String.eqb k key) eqn:E; [| exact IH].
  apply String.eqb_eq in E. now subst k.
Qed.

(** C3 (amended). Flattening an object keeps its keys in their order and
    handles every property on its own. A property other than
    [ChangeEventHeader] whose value has exactly one key is replaced by the
    value of that key, and if the replacement is an object, by the
    replacement with its own properties flattened in the same way (the
    replacement is not unwrapped again). Every other property is left as it
    is: in particular [ChangeEventHeader], also with a single-key value.
    So [{ Name: { string: "Acme" } }] becomes [{ Name: "Acme" }], and the
    doubly nested [{ Name: { a: { b: "x" } } }] becomes
    [{ Name: { b: "x" } }]. *)
Theorem flatten_properties (props : list (string * JsValue)) :
  exists props',
    flattenSinglePropertyObjects (JsObject props) = JsObject props'
    /\ map fst props' = map fst props
    /\ (forall key value, getProp key props = Some value ->
        getProp key props'
        = Some (if String.eqb key ChangeEventHeader then value
                else match soleValue value with
                     | Some subValue =>
                         if isObject subValue
                         then flattenSinglePropertyObjects subValue
                         else subValue
                     | None => value
                     end))
    /\ (forall header, getProp ChangeEventHeader props = Some header ->
        getProp ChangeEventHeader props' = Some header)
    /\ flattenSinglePropertyObjects
         (JsObject [("Name", JsObject [("string", JsString "Acme")])])
       = JsObject [("Name", JsString "Acme")]
    /\ flattenSinglePropertyObjects
         (JsObject [("Name", JsObject [("a", JsObject [("b", JsString "x")])])])
       = JsObject [("Name", JsObject [("b", JsString "x")])].
Proof.
  eexists. split; [apply flatten_object |].
  split; [| split; [| split; [| split; reflexivity]]].
  - rewrite map_map. reflexivity.
  - intros key value H. rewrite getProp_map, H. reflexivity.
  - intros header H. rewrite getProp_map, H. reflexivity.
Qed.

(** C3 as stated fails on a doubly nested wrapper, whose inner wrapper is
    left in place, and on a wrapper inside an object with several keys,
    which is not visited. *)
Lemma flatten_nested_wrapper_counterexample :
  flattenSinglePropertyObjects
    (JsObject [("Name", JsObject [("a", JsObject [("b", JsString "x")])])])
  = JsObject [("Name", JsObject [("b", JsString "x")])]
  /\ noWrapperLeft
       (flattenSinglePropertyObjects
          (JsObject [("Name", JsObject [("a", JsObject [("b", JsString "x")])])]))
     = false
  /\ flattenSinglePropertyObjects
       (JsObject [("Address", JsObject [("Street", JsObject [("string", JsString "x")]);
                                        ("City", JsObject [("string", JsString "y")])])])
     = JsObject [("Address", JsObject [("Street", JsObject [("string", JsString "x")]);
                                       ("City", JsObject [("string", JsString "y")])])]
  /\ noWrapperLeft (JsObject [("Name", JsString "x")]) = true.
Proof. repeat split. Qed.

Lemma flatten_properties_witness :
  exists props',
    flattenSinglePropertyObjects
      (JsObject [("Name", JsObject [("string", JsString "Acme")]);
                 ("ChangeEventHeader", JsObject [("entityName", JsString "Account")])])
    = JsObject props'
    /\ getProp "Name" props' = Some (JsString "Acme")
    /\ getProp "ChangeEventHeader" props'
       = Some (JsObject [("entityName", JsString "Account")]).
Proof.
  destruct (flatten_properties
              [("Name", JsObject [("string", JsString "Acme")]);
               ("ChangeEventHeader", JsObject [("entityName", JsString "Account")])])
    as (props' & Hflat & _ & Hprop & Hheader & _).
  exists props'. split; [exact Hflat |]. split.
  - exact (Hprop "Name" _ eq_refl).
  - exact (Hheader _ eq_refl).
Defined.

(** ** The handlers on the example traffic *)

Lemma flow_control_at_requested_count_witness :
  (exists st',
     onData exampleGetSchema exampleParseEvent false
            (messageOf (Some [goodEvent x01; badEvent x02; goodEvent x03]) x03)
            {| emitter := newPubSubEventEmitter "/event/T" 3;
               api := snd (subscribe boundedRequest connectedClient) |} = OK st'
     /\ countSignals isLastevent (emitted (emitter st')) = 1%nat
     /\ List.last (emitted (emitter st')) SigEnd = SigLastevent
     /\ api st' = snd (subscribe boundedRequest connectedClient))
  /\ (exists st',
       onData exampleGetSchema exampleParseEvent true
              (messageOf (Some (replicate 100 (goodEvent x01))) x01)
              {| emitter := newPubSubEventEmitter "/event/T" 100;
                 api := snd (subscribe unboundedRequest connectedClient) |} = OK st'
       /\ receivedEventCount (emitter st') = 0
       /\ requestedEventCount (emitter st') = 100).
Proof.
  split.
  - exact (proj1 (flow_control_at_requested_count exampleGetSchema exampleParseEvent
                    boundedRequest connectedClient
                    (snd (subscribe boundedRequest connectedClient))
                    {| eventEmitter := newPubSubEventEmitter "/event/T" 3;
                       isInfiniteEventRequest := false |}
                    (messageOf (Some [goodEvent x01; badEvent x02; goodEvent x03]) x03)
                    [goodEvent x01; badEvent x02; goodEvent x03]
                    eq_refl eq_refl (le_n 8))
                 eq_refl eq_refl).
  - destruct (proj2 (flow_control_at_requested_count exampleGetSchema exampleParseEvent
                    unboundedRequest connectedClient
                    (snd (subscribe unboundedRequest connectedClient))
                    {| eventEmitter := newPubSubEventEmitter "/event/T" 100;
                       isInfiniteEventRequest := true |}
                    (messageOf (Some (replicate 100 (goodEvent x01))) x01)
                    (replicate 100 (goodEvent x01))
                    eq_refl eq_refl (le_n 8))
                 (or_introl eq_refl) eq_refl)
      as (st' & written & Hrun & _ & _ & _ & Hreceived & Hrequested & _).
    exists st'. split; [exact Hrun |]. split; [exact Hreceived | exact Hrequested].
Defined.

Lemma empty_events_array_emits_nothing_witness :
  events (messageOf (Some []) x05) = Some []
  /\ (8 <= length (latestReplayId (messageOf (Some []) x05)))%nat
  /\ onData exampleGetSchema exampleParseEvent true (messageOf (Some []) x05)
            {| emitter := newPubSubEventEmitter "/event/T" 100;
               api := snd (subscribe unboundedRequest connectedClient) |}
     = OK {| emitter := newPubSubEventEmitter "/event/T" 100;
             api := snd (subscribe unboundedRequest connectedClient) |}.
Proof.
  split; [reflexivity |]. split; [exact (le_n 8) |].
  exact (empty_events_array_emits_nothing exampleGetSchema exampleParseEvent true
           (messageOf (Some []) x05) _ eq_refl (le_n 8)).
Defined.


(* ===================================================================== *)
(** * Further properties of the code *)
(* ===================================================================== *)

(** ** Replay ids on the wire *)

Lemma word_bytes (w : Z) :
  0 <= w < 4294967296 ->
  w mod 256 + (w / 256) mod 256 * 256 + (w / 65536) mod 256 * 65536
  + (w / 16777216) mod 256 * 16777216 = w.
Proof. intros Hw. Z.div_mod_to_equations. lia. Qed.

Lemma byteOfZ_of_byte (z : Z) (b : byte) : z mod 256 = byteToZ b -> byteOfZ z = b.
Proof.
  intros H. unfold byteOfZ, byteToZ in *. rewrite H, N2Z.id, Byte.of_to_N. reflexivity.
Qed.

Lemma readBigUInt64BE_eight (b0 b1 b2 b3 b4 b5 b6 b7 : byte) (rest : Buffer) :
  readBigUInt64BE (b0 :: b1 :: b2 :: b3 :: b4 :: b5 :: b6 :: b7 :: rest)
  = OK (bigEndian [b0; b1; b2; b3; b4; b5; b6; b7]).
Proof.
  unfold readBigUInt64BE, bigEndian. cbn [fold_left]. f_equal.
  rewrite Z.shiftl_mul_pow2 by lia.
  change (2 ^ 32) with 4294967296. change (2 ^ 24) with 16777216.
  change (2 ^ 16) with 65536. change (2 ^ 8) with 256. lia.
Qed.

Lemma bigEndian_eight_range (b0 b1 b2 b3 b4 b5 b6 b7 : byte) :
  0 <= bigEndian [b0; b1; b2; b3; b4; b5; b6; b7] < 2 ^ 64.
Proof.
  unfold bigEndian. cbn [fold_left].
  pose proof (byteToZ_range b0). pose proof (byteToZ_range b1).
  pose proof (byteToZ_range b2). pose proof (byteToZ_range b3).
  pose proof (byteToZ_range b4). pose proof (byteToZ_range b5).
  pose proof (byteToZ_range b6). pose proof (byteToZ_range b7).
  change (2 ^ 64) with 18446744073709551616. lia.
Qed.

Lemma writeBigUInt64BE_eight (b0 b1 b2 b3 b4 b5 b6 b7 : byte) :
  writeBigUInt64BE (bigEndian [b0; b1; b2; b3; b4; b5; b6; b7])
  = OK [b0; b1; b2; b3; b4; b5; b6; b7].
Proof.
  pose proof (bigEndian_eight_range b0 b1 b2 b3 b4 b5 b6 b7) as Hr.
  unfold writeBigUInt64BE.
  replace ((_ <? 0) || (2 ^ 64 - 1 <? _)) with false
    by (symmetry; apply orb_false_intro; lia).
  change 0xffffffff with (Z.ones 32). rewrite !Z.land_ones by lia.
  rewrite !Z.shiftr_div_pow2 by lia.
  clear Hr. unfold bigEndian. cbn [fold_left].
  pose proof (byteToZ_range b0). pose proof (byteToZ_range b1).
  pose proof (byteToZ_range b2). pose proof (byteToZ_range b3).
  pose proof (byteToZ_range b4). pose proof (byteToZ_range b5).
  pose proof (byteToZ_range b6). pose proof (byteToZ_range b7).
  change (2 ^ 32) with 4294967296. change (2 ^ 24) with 16777216.
  change (2 ^ 16) with 65536. change (2 ^ 8) with 256.
  set (v := (((((((0 * 256 + byteToZ b0) * 256 + byteToZ b1) * 256 + byteToZ b2) * 256
               + byteToZ b3) * 256 + byteToZ b4) * 256 + byteToZ b5) * 256 + byteToZ b6)
             * 256 + byteToZ b7).
  assert (Hhi : v / 4294967296 mod 4294967296
                = byteToZ b0 * 16777216 + byteToZ b1 * 65536 + byteToZ b2 * 256 + byteToZ b3)
    by (subst v; Z.div_mod_to_equations; lia).
  assert (Hlo : v mod 4294967296
                = byteToZ b4 * 16777216 + byteToZ b5 * 65536 + byteToZ b6 * 256 + byteToZ b7)
    by (subst v; Z.div_mod_to_equations; lia).
  rewrite Hhi, Hlo. clearbody v. clear Hhi Hlo v.
  repeat f_equal; apply byteOfZ_of_byte; Z.div_mod_to_equations; lia.
Qed.

(** X1. [encodeReplayId] accepts exactly the integers from 0 to [2^64 - 1]:
    it then returns 8 bytes whose big-endian unsigned value is the replay
    id; on any other integer it throws a [RangeError]. *)
Theorem encodeReplayId_big_endian (replay : Z) :
  if (0 <=? replay) && (replay <? 2 ^ 64)
  then exists buf, encodeReplayId replay = OK buf
                   /\ length buf = 8%nat /\ bigEndian buf = replay
  else exists message, encodeReplayId replay = Throw (RangeError message).
Proof.
  destruct ((0 <=? replay) && (replay <? 2 ^ 64)) eqn:E.
  - apply andb_prop in E as [H0 H1]. apply Z.leb_le in H0. apply Z.ltb_lt in H1.
    pose proof (readBigUInt64BE_write replay (conj H0 H1)) as Hrw.
    unfold encodeReplayId.
    destruct (writeBigUInt64BE replay) as [buf|e] eqn:Hw; [| discriminate Hrw].
    exists buf. split; [reflexivity |].
    unfold writeBigUInt64BE in Hw.
    destruct ((replay <? 0) || (2 ^ 64 - 1 <? replay)); [discriminate Hw |].
    injection Hw as <-. split; [reflexivity |].
    cbn [mbind Exc_bind] in Hrw. rewrite readBigUInt64BE_eight in Hrw.
    now injection Hrw.
  - unfold encodeReplayId, writeBigUInt64BE.
    replace ((replay <? 0) || (2 ^ 64 - 1 <? replay)) with true; [eexists; reflexivity |].
    symmetry. apply andb_false_iff in E as [E | E].
    + apply Z.leb_gt in E. apply orb_true_intro. left. apply Z.ltb_lt. lia.
    + apply Z.ltb_ge in E. apply orb_true_intro. right. apply Z.ltb_lt. lia.
Qed.

(** X2. The bytes of a replay id come back: a buffer of at least 8 bytes
    whose first 8 bytes denote a value below [2^53] is decoded to a number
    that [encodeReplayId] turns into these 8 bytes again. *)
Theorem replayId_bytes_round_trip (buf : Buffer) :
  (8 <= length buf)%nat ->
  bigEndian (take 8 buf) < 2 ^ 53 ->
  (n ← decodeReplayId buf; encodeReplayId n) = OK (take 8 buf).
Proof.
  intros Hlen Hsmall.
  rewrite (decodeReplayId_at_least_eight buf Hlen). cbn [mbind Exc_bind].
  rewrite NumberOfBigInt_exact;
    [| apply bigEndian_nonneg
     | apply isBinary64Integer_small; split; [apply bigEndian_nonneg | exact Hsmall]].
  do 8 (destruct buf as [|? buf]; [simpl in Hlen; lia |]).
  cbn [take]. apply writeBigUInt64BE_eight.
Qed.

Lemma replayId_bytes_round_trip_witness :
  (8 <= length [x00; x00; x00; x00; x00; x12; x34; x56; xff])%nat
  /\ bigEndian (take 8 [x00; x00; x00; x00; x00; x12; x34; x56; xff]) < 2 ^ 53
  /\ (n ← decodeReplayId [x00; x00; x00; x00; x00; x12; x34; x56; xff]; encodeReplayId n)
     = OK [x00; x00; x00; x00; x00; x12; x34; x56].
Proof.
  split; [simpl; lia |]. split; [reflexivity |].
  apply (replayId_bytes_round_trip [x00; x00; x00; x00; x00; x12; x34; x56; xff]);
    [simpl; lia | reflexivity].
Defined.

Lemma roundToDouble_error (x : Z) :
  0 <= x -> Z.abs (roundToDouble x - x) * 2 ^ 53 <= x.
Proof.
  intros Hx. unfold roundToDouble.
  destruct (x <? 2 ^ 53) eqn:E; [rewrite Z.sub_diag; simpl; lia |].
  apply Z.ltb_ge in E.
  assert (Hlog : 53 <= Z.log2 x) by (apply Z.log2_le_pow2; lia).
  set (e := Z.log2 x - 52). assert (He : 0 < e) by (unfold e; lia).
  rewrite !Z.shiftl_mul_pow2, Z.shiftr_div_pow2 by lia.
  assert (Hpow : 2 ^ e = 2 * 2 ^ (e - 1)).
  { replace e with (Z.succ (e - 1)) at 1 by lia. apply Z.pow_succ_r. lia. }
  assert (Hh : 0 < 2 ^ (e - 1)) by (apply Z.pow_pos_nonneg; lia).
  assert (Hbig : 2 ^ 53 * 2 ^ (e - 1) <= x).
  { rewrite <- Z.pow_add_r by lia. replace (53 + (e - 1)) with (Z.log2 x) by (unfold e; lia).
    apply Z.log2_spec. lia. }
  set (h := 2 ^ (e - 1)) in *. rewrite Hpow.
  pose proof (Z.div_mod x (2 * h)) as Hdm.
  pose proof (Z.mod_pos_bound x (2 * h)) as Hm.
  set (q := x / (2 * h)) in *. set (r := x mod (2 * h)) in *.
  replace (x - q * (2 * h)) with r by lia.
  change (2 ^ 53) with 9007199254740992 in *.
  destruct (r <? h) eqn:E1; [apply Z.ltb_lt in E1; nia |].
  apply Z.ltb_ge in E1.
  destruct (h <? r) eqn:E2; [apply Z.ltb_lt in E2; nia |].
  apply Z.ltb_ge in E2.
  destruct (Z.even q); nia.
Qed.

(** X3. Above [2^53] the round trip of a replay id is the nearest number
    and not the integer: for every integer [x] from 0 to [2^64 - 1],
    decoding the encoding of [x] succeeds and the result differs from [x]
    by at most [x / 2^53]. *)
Theorem replayId_round_trip_error (x : Z) :
  0 <= x < 2 ^ 64 ->
  exists r, (buf ← encodeReplayId x; decodeReplayId buf) = OK r
            /\ Z.abs (r - x) * 2 ^ 53 <= x.
Proof.
  intros Hx. pose proof (readBigUInt64BE_write x Hx) as Hrw.
  unfold encodeReplayId, decodeReplayId.
  destruct (writeBigUInt64BE x) as [buf|e]; [| discriminate Hrw].
  cbn [mbind Exc_bind] in *. rewrite Hrw. cbn [mbind Exc_bind].
  eexists. split; [reflexivity |].
  unfold NumberOfBigInt. rewrite (Z.abs_eq x) by lia.
  destruct (Z.eq_dec x 0) as [-> | Hne]; [simpl; lia |].
  rewrite Z.sgn_pos, Z.mul_1_l by lia. apply roundToDouble_error. lia.
Qed.

Lemma replayId_round_trip_error_witness :
  0 <= 2 ^ 64 - 1 < 2 ^ 64
  /\ exists r, (buf ← encodeReplayId (2 ^ 64 - 1); decodeReplayId buf) = OK r
               /\ Z.abs (r - (2 ^ 64 - 1)) * 2 ^ 53 <= 2 ^ 64 - 1.
Proof.
  split; [split; [discriminate | reflexivity] |].
  apply replayId_round_trip_error. split; [discriminate | reflexivity].
Defined.

(** ** The Avro long type *)

Lemma shiftLeft24_byte (b : byte) :
  shiftLeft24 (byteToZ b)
  = if byteToZ b <? 128 then byteToZ b * 16777216 else byteToZ b * 16777216 - 4294967296.
Proof.
  pose proof (byteToZ_range b) as Hb. unfold shiftLeft24.
  change (2 ^ 24) with 16777216. change (2 ^ 32) with 4294967296.
  change (2 ^ 31) with 2147483648.
  rewrite Z.mod_small by lia.
  destruct (byteToZ b <? 128) eqn:E.
  - apply Z.ltb_lt in E. now replace (_ <? 2147483648) with true by (symmetry; apply Z.ltb_lt; lia).
  - apply Z.ltb_ge in E. now replace (_ <? 2147483648) with false by (symmetry; apply Z.ltb_ge; lia).
Qed.

Lemma readBigInt64LE_write (value : Z) :
  - 2 ^ 63 <= value < 2 ^ 63 ->
  (buf ← writeBigInt64LE value; readBigInt64LE buf) = OK value.
Proof.
  intros Hv. unfold writeBigInt64LE.
  replace ((value <? - 2 ^ 63) || (2 ^ 63 - 1 <? value)) with false
    by (symmetry; apply orb_false_intro; lia).
  cbn [mbind Exc_bind readBigInt64LE]. f_equal.
  rewrite shiftLeft24_byte, !byteToZ_byteOfZ.
  change 0xffffffff with (Z.ones 32). rewrite !Z.land_ones by lia.
  rewrite !Z.shiftr_div_pow2, Z.shiftl_mul_pow2 by lia.
  change (2 ^ 63) with 9223372036854775808 in Hv.
  change (2 ^ 32) with 4294967296. change (2 ^ 24) with 16777216.
  change (2 ^ 16) with 65536. change (2 ^ 8) with 256.
  set (hi := value / 4294967296 mod 4294967296).
  set (lo := value mod 4294967296).
  assert (Hhi : 0 <= hi < 4294967296) by (apply Z.mod_pos_bound; lia).
  assert (Hlo : 0 <= lo < 4294967296) by (apply Z.mod_pos_bound; lia).
  pose proof (word_bytes hi Hhi) as Wh. pose proof (word_bytes lo Hlo) as Wl.
  assert (Htop : (hi / 16777216) mod 256 = hi / 16777216)
    by (apply Z.mod_small; Z.div_mod_to_equations; lia).
  rewrite Htop in *.
  assert (Hsign : (hi / 16777216 <? 128) = (0 <=? value)).
  { apply eq_true_iff_eq. rewrite Z.ltb_lt, Z.leb_le. subst hi.
    Z.div_mod_to_equations. lia. }
  rewrite Hsign.
  assert (Hval : value = value / 4294967296 * 4294967296 + lo)
    by (subst lo; Z.div_mod_to_equations; lia).
  assert (Hhi' : hi = if 0 <=? value then value / 4294967296
                      else value / 4294967296 + 4294967296).
  { subst hi. destruct (0 <=? value) eqn:E.
    - apply Z.leb_le in E. apply Z.mod_small. Z.div_mod_to_equations. lia.
    - apply Z.leb_gt in E. Z.div_mod_to_equations. lia. }
  destruct (0 <=? value); lia.
Qed.

Lemma asIntN64_id (b : Z) : - 2 ^ 63 <= b < 2 ^ 63 -> asIntN64 b = b.
Proof.
  intros Hb. unfold asIntN64.
  change (2 ^ 63) with 9223372036854775808 in *.
  change (2 ^ 64) with 18446744073709551616.
  destruct (_ <? _) eqn:E; [apply Z.ltb_lt in E | apply Z.ltb_ge in E];
    Z.div_mod_to_equations; lia.
Qed.

Lemma NumberOfBigInt_safe (b : Z) :
  MIN_SAFE_INTEGER <= b <= MAX_SAFE_INTEGER -> NumberOfBigInt b = b.
Proof.
  unfold MIN_SAFE_INTEGER, MAX_SAFE_INTEGER. intros Hb.
  unfold NumberOfBigInt, roundToDouble.
  replace (Z.abs b <? 2 ^ 53) with true by (symmetry; apply Z.ltb_lt; lia).
  destruct b; simpl; lia.
Qed.

(** X4. An Avro long survives [toBuffer] then [fromBuffer] exactly: every
    integer of the signed 64-bit range, passed as a number or as a BigInt,
    is written as 8 bytes that are read back as the same integer, a number
    inside the safe integers and a BigInt outside. On an integer outside
    the 64-bit range [toBuffer] throws a [RangeError]. *)
Theorem CustomLong_round_trip (v : LongValue) :
  let n := longInteger v in
  if (- 2 ^ 63 <=? n) && (n <? 2 ^ 63)
  then exists buf,
         CustomLongAvroType.toBuffer v = OK buf
         /\ length buf = 8%nat
         /\ CustomLongAvroType.fromBuffer buf
            = OK (if (n <? MIN_SAFE_INTEGER) || (MAX_SAFE_INTEGER <? n)
                  then LongBigInt n else LongNumber n)
  else exists message, CustomLongAvroType.toBuffer v = Throw (RangeError message).
Proof.
  intros n. unfold CustomLongAvroType.toBuffer. fold n.
  destruct ((- 2 ^ 63 <=? n) && (n <? 2 ^ 63)) eqn:E.
  - apply andb_prop in E as [H0 H1]. apply Z.leb_le in H0. apply Z.ltb_lt in H1.
    pose proof (readBigInt64LE_write n (conj H0 H1)) as Hrw.
    destruct (writeBigInt64LE n) as [buf|e] eqn:Hw; [| discriminate Hrw].
    exists buf. split; [reflexivity |]. split.
    + unfold writeBigInt64LE in Hw.
      destruct ((n <? - 2 ^ 63) || (2 ^ 63 - 1 <? n)); [discriminate Hw |].
      now injection Hw as <-.
    + cbn [mbind Exc_bind] in Hrw. unfold CustomLongAvroType.fromBuffer.
      rewrite Hrw. cbn [mbind Exc_bind].
      destruct ((n <? MIN_SAFE_INTEGER) || (MAX_SAFE_INTEGER <? n)) eqn:Es; [reflexivity |].
      apply orb_false_elim in Es as [E1 E2]. apply Z.ltb_ge in E1, E2.
      rewrite asIntN64_id by lia. now rewrite NumberOfBigInt_safe by lia.
  - unfold writeBigInt64LE.
    replace ((n <? - 2 ^ 63) || (2 ^ 63 - 1 <? n)) with true; [eexists; reflexivity |].
    symmetry. apply andb_false_iff in E as [E | E].
    + apply Z.leb_gt in E. apply orb_true_intro. left. apply Z.ltb_lt. lia.
    + apply Z.ltb_ge in E. apply orb_true_intro. right. apply Z.ltb_lt. lia.
Qed.

(** X5. [compare] orders longs by their integer value, whatever mix of
    numbers and BigInts: the smaller first gives -1 and the larger first
    gives 1. It returns 0 only on two equal values of the same kind: a
    number and a BigInt of the same value compare as 1 in both orders. *)
Theorem CustomLong_compare (a b : LongValue) :
  (longInteger a < longInteger b ->
   CustomLongAvroType.compare a b = -1 /\ CustomLongAvroType.compare b a = 1)
  /\ (CustomLongAvroType.compare a b = 0 <-> a = b)
  /\ (forall n, CustomLongAvroType.compare (LongNumber n) (LongBigInt n) = 1
                /\ CustomLongAvroType.compare (LongBigInt n) (LongNumber n) = 1).
Proof.
  unfold CustomLongAvroType.compare, CustomLongAvroType.strictEquals.
  split; [| split].
  - intros Hlt. destruct a as [x|x], b as [y|y]; cbn [longInteger] in *;
      repeat match goal with
             | |- context [?u =? ?w] => destruct (Z.eqb_spec u w); [lia |]
             | |- context [?u <? ?w] => destruct (Z.ltb_spec u w); [| try lia]
             end; (split; (reflexivity || lia)).
  - destruct a as [x|x], b as [y|y]; cbn [longInteger];
      repeat match goal with
             | |- context [?u =? ?w] => destruct (Z.eqb_spec u w)
             | |- context [?u <? ?w] => destruct (Z.ltb_spec u w)
             end; split; intros Hres; try discriminate Hres; try congruence; try lia.
  - intros n. cbn [longInteger]. rewrite Z.ltb_irrefl. split; reflexivity.
Qed.

Lemma CustomLong_compare_witness :
  longInteger (LongNumber 5) < longInteger (LongBigInt (2 ^ 60))
  /\ CustomLongAvroType.compare (LongNumber 5) (LongBigInt (2 ^ 60)) = -1
  /\ CustomLongAvroType.compare (LongBigInt (2 ^ 60)) (LongNumber 5) = 1.
Proof.
  split; [reflexivity |].
  apply (proj1 (CustomLong_compare (LongNumber 5) (LongBigInt (2 ^ 60)))). reflexivity.
Defined.

Lemma writeBigInt64LE_read (b0 b1 b2 b3 b4 b5 b6 b7 : byte) (rest : Buffer) :
  (big ← readBigInt64LE (b0 :: b1 :: b2 :: b3 :: b4 :: b5 :: b6 :: b7 :: rest);
   writeBigInt64LE big) = OK [b0; b1; b2; b3; b4; b5; b6; b7]
  /\ exists big, readBigInt64LE (b0 :: b1 :: b2 :: b3 :: b4 :: b5 :: b6 :: b7 :: rest) = OK big
                 /\ - 2 ^ 63 <= big < 2 ^ 63.
Proof.
  cbn [readBigInt64LE mbind Exc_bind].
  rewrite shiftLeft24_byte, Z.shiftl_mul_pow2 by lia.
  pose proof (byteToZ_range b0). pose proof (byteToZ_range b1).
  pose proof (byteToZ_range b2). pose proof (byteToZ_range b3).
  pose proof (byteToZ_range b4). pose proof (byteToZ_range b5).
  pose proof (byteToZ_range b6). pose proof (byteToZ_range b7).
  change (2 ^ 32) with 4294967296. change (2 ^ 24) with 16777216.
  change (2 ^ 16) with 65536. change (2 ^ 8) with 256.
  set (lo := byteToZ b0 + byteToZ b1 * 256 + byteToZ b2 * 65536 + byteToZ b3 * 16777216).
  set (hi := byteToZ b4 + byteToZ b5 * 256 + byteToZ b6 * 65536 + byteToZ b7 * 16777216).
  set (val := byteToZ b4 + byteToZ b5 * 256 + byteToZ b6 * 65536
              + (if byteToZ b7 <? 128 then byteToZ b7 * 16777216
                 else byteToZ b7 * 16777216 - 4294967296)).
  assert (Hval : val = hi \/ val = hi - 4294967296)
    by (subst val hi; destruct (byteToZ b7 <? 128); lia).
  assert (Hvr : -2147483648 <= val < 2147483648).
  { subst val. destruct (byteToZ b7 <? 128) eqn:E;
      [apply Z.ltb_lt in E | apply Z.ltb_ge in E]; lia. }
  assert (Hlo : 0 <= lo < 4294967296) by (subst lo; lia).
  assert (Hhi : 0 <= hi < 4294967296) by (subst hi; lia).
  set (big := val * 4294967296 + lo).
  assert (Hbig : - 2 ^ 63 <= big < 2 ^ 63)
    by (change (2 ^ 63) with 9223372036854775808; subst big; lia).
  split; [| exists big; split; [reflexivity | exact Hbig]].
  unfold writeBigInt64LE.
  replace ((big <? - 2 ^ 63) || (2 ^ 63 - 1 <? big)) with false
    by (symmetry; apply orb_false_intro; lia).
  change 0xffffffff with (Z.ones 32). rewrite !Z.land_ones by lia.
  rewrite !Z.shiftr_div_pow2 by lia.
  change (2 ^ 32) with 4294967296. change (2 ^ 24) with 16777216.
  change (2 ^ 16) with 65536. change (2 ^ 8) with 256.
  assert (Elo : big mod 4294967296 = lo)
    by (subst big; Z.div_mod_to_equations; lia).
  assert (Ehi : big / 4294967296 mod 4294967296 = hi)
    by (subst big; destruct Hval; Z.div_mod_to_equations; lia).
  rewrite Elo, Ehi. subst lo hi. clear.
  pose proof (byteToZ_range b0). pose proof (byteToZ_range b1).
  pose proof (byteToZ_range b2). pose proof (byteToZ_range b3).
  pose proof (byteToZ_range b4). pose proof (byteToZ_range b5).
  pose proof (byteToZ_range b6). pose proof (byteToZ_range b7).
  repeat f_equal; apply byteOfZ_of_byte; Z.div_mod_to_equations; lia.
Qed.

(** X6. The bytes of an Avro long survive [fromBuffer] then [toBuffer]: a
    buffer of at least 8 bytes is read as a long that is written back as
    its first 8 bytes, with no loss above the safe integers. *)
Theorem CustomLong_bytes_round_trip (buf : Buffer) :
  (8 <= length buf)%nat ->
  (v ← CustomLongAvroType.fromBuffer buf; CustomLongAvroType.toBuffer v) = OK (take 8 buf).
Proof.
  intros Hlen.
  do 8 (destruct buf as [|? buf]; [simpl in Hlen; lia |]).
  cbn [take].
  destruct (writeBigInt64LE_read b b0 b1 b2 b3 b4 b5 b6 buf)
    as (Hwrite & big & Hread & Hrange).
  unfold CustomLongAvroType.fromBuffer, CustomLongAvroType.toBuffer.
  rewrite Hread in *. cbn [mbind Exc_bind] in *.
  destruct ((big <? MIN_SAFE_INTEGER) || (MAX_SAFE_INTEGER <? big)) eqn:Es;
    cbn [longInteger]; [exact Hwrite |].
  apply orb_false_elim in Es as [E1 E2]. apply Z.ltb_ge in E1, E2.
  rewrite asIntN64_id by lia. now rewrite NumberOfBigInt_safe by lia.
Qed.

Lemma CustomLong_bytes_round_trip_witness :
  (8 <= length [xff; xff; xff; xff; xff; xff; xff; x7f])%nat
  /\ (v ← CustomLongAvroType.fromBuffer [xff; xff; xff; xff; xff; xff; xff; x7f];
      CustomLongAvroType.toBuffer v)
     = OK [xff; xff; xff; xff; xff; xff; xff; x7f].
Proof.
  split; [simpl; lia |].
  apply (CustomLong_bytes_round_trip [xff; xff; xff; xff; xff; xff; xff; x7f]).
  simpl; lia.
Defined.

(** ** More on bitmaps *)

Lemma scanBits_sublist (binValue : list ascii) (fields : list AvroField) :
  scanBits binValue fields `sublist_of` map getName fields.
Proof.
  revert fields. induction binValue as [|b binValue IH]; intros [|f fields]; simpl;
    try apply sublist_nil_l.
  destruct (Ascii.eqb b "1"); simpl.
  - apply sublist_skip, IH.
  - apply sublist_cons, IH.
Qed.

(** X7. Whatever the bitmap string, the names [getFieldNamesFromBitmap]
    returns are names of the given fields, in field order and each field
    at most once: the result is a sublist of the list of field names. *)
Theorem bitmap_names_sublist (fields : list AvroField) (fieldBitmapAsHex : string) :
  getFieldNamesFromBitmap fields fieldBitmapAsHex `sublist_of` map getName fields.
Proof. apply scanBits_sublist. Qed.

Lemma scanBits_zeros (fields : list AvroField) :
  scanBits ["0"; "0"; "0"; "0"]%char fields = [].
Proof. destruct fields as [|? [|? [|? [|? ?]]]]; reflexivity. Qed.

(** X8. A zero digit in front of the digits of a bitmap changes nothing:
    the bitmap may be padded on the left. *)
Theorem bitmap_leading_zero (fields : list AvroField) (digits : string) :
  getFieldNamesFromBitmap fields ("0x" +:+ String "0" digits)
  = getFieldNamesFromBitmap fields ("0x" +:+ digits).
Proof.
  unfold getFieldNamesFromBitmap. rewrite hexToBin_cons, chars_append.
  change (Js.chars (nibble "0")) with ["0"; "0"; "0"; "0"]%char.
  rewrite rev_app_distr, scanBits_app.
  change (rev ["0"; "0"; "0"; "0"]%char) with ["0"; "0"; "0"; "0"]%char.
  now rewrite scanBits_zeros, app_nil_r.
Qed.

Lemma hexDigitValue_range (c : ascii) (v : Z) : hexDigitValue c = Some v -> 0 <= v < 16.
Proof.
  unfold hexDigitValue. set (n := Z.of_nat (nat_of_ascii c)).
  repeat match goal with
         | |- context [?a && ?b] =>
             destruct a eqn:?; destruct b eqn:?; cbn [andb]
         end; intros H; try discriminate H; injection H as <-; lia.
Qed.

Lemma hexValue_fold (l : list ascii) (acc : Z) :
  fold_left (fun acc c => 16 * acc + default 0 (hexDigitValue c)) l acc
  = acc * 16 ^ Z.of_nat (length l)
    + fold_left (fun acc c => 16 * acc + default 0 (hexDigitValue c)) l 0.
Proof.
  revert acc. induction l as [|c l IH]; intros acc.
  - simpl. lia.
  - cbn [fold_left length]. rewrite IH, (IH (16 * 0 + _)).
    rewrite Nat2Z.inj_succ, Z.pow_succ_r by lia. lia.
Qed.

Lemma hexValue_cons (c : ascii) (rest : string) :
  hexValue (String c rest)
  = default 0 (hexDigitValue c) * 16 ^ Z.of_nat (String.length rest) + hexValue rest.
Proof.
  unfold hexValue. cbn [Js.chars fold_left]. rewrite hexValue_fold, chars_length. lia.
Qed.

Lemma hexToBits_cons_inv (c : ascii) (rest : string) (bits : list bool) :
  hexToBits (String c rest) = Some bits ->
  exists v bitsr, hexDigitValue c = Some v /\ hexToBits rest = Some bitsr
                  /\ bits = fourBits v ++ bitsr.
Proof.
  cbn [hexToBits].
  destruct (hexDigitValue c) as [v|]; [| discriminate].
  destruct (hexToBits rest) as [bitsr|]; [| discriminate].
  intros H. exists v, bitsr. split; [reflexivity |]. split; [reflexivity |].
  change (Some (fourBits v ++ bitsr) = Some bits) in H. congruence.
Qed.

Lemma pow16_bits (bits : list bool) (n : nat) :
  length bits = (4 * n)%nat -> 16 ^ Z.of_nat n = 2 ^ Z.of_nat (length bits).
Proof.
  intros ->. replace (Z.of_nat (4 * n)) with (4 * Z.of_nat n) by lia.
  now rewrite Z.pow_mul_r by lia.
Qed.

Lemma hexToBits_length (digits : string) (bits : list bool) :
  hexToBits digits = Some bits -> length bits = (4 * String.length digits)%nat.
Proof.
  revert bits. induction digits as [|c rest IH]; intros bits H.
  - injection H as <-. reflexivity.
  - apply hexToBits_cons_inv in H as (v & bitsr & _ & Hr & ->).
    rewrite length_app, (IH bitsr Hr). cbn [fourBits length String.length]. lia.
Qed.

Lemma hexValue_range (digits : string) (bits : list bool) :
  hexToBits digits = Some bits -> 0 <= hexValue digits < 2 ^ Z.of_nat (length bits).
Proof.
  revert bits. induction digits as [|c rest IH]; intros bits H.
  - injection H as <-. cbn. lia.
  - rewrite hexValue_cons.
    apply hexToBits_cons_inv in H as (v & bitsr & Hv & Hr & ->).
    specialize (IH bitsr Hr).
    pose proof (hexDigitValue_range c v Hv) as Hvr.
    rewrite (pow16_bits bitsr _ (hexToBits_length rest bitsr Hr)), Hv.
    rewrite length_app. cbn [default fourBits length]. unfold id.
    replace (Z.of_nat (4 + length bitsr)) with (4 + Z.of_nat (length bitsr)) by lia.
    rewrite Z.pow_add_r by lia. change (2 ^ 4) with 16.
    set (p := 2 ^ Z.of_nat (length bitsr)) in *. nia.
Qed.

Lemma fourBits_lookup (v : Z) (j : nat) :
  0 <= v < 16 ->
  (rev (fourBits v) !! j = Some true <-> Z.testbit v (Z.of_nat j) = true).
Proof.
  intros Hv. destruct j as [|[|[|[|j]]]]; cbn [fourBits rev app lookup list_lookup].
  1-4: split; intros H; [injection H as H; exact H | f_equal; exact H].
  split; [discriminate |]. intros H.
  rewrite Z.bits_above_log2 in H; [discriminate H | lia |].
  destruct (Z.eq_dec v 0) as [-> | Hne]; [simpl; lia |].
  apply Z.lt_le_trans with 4; [apply Z.log2_lt_pow2; lia | lia].
Qed.

Lemma hexToBits_testbit (digits : string) (bits : list bool) (i : nat) :
  hexToBits digits = Some bits ->
  (rev bits !! i = Some true <-> Z.testbit (hexValue digits) (Z.of_nat i) = true).
Proof.
  revert bits i. induction digits as [|c rest IH]; intros bits i H.
  - injection H as <-. cbn. rewrite Z.bits_0. split; discriminate.
  - rewrite hexValue_cons.
    apply hexToBits_cons_inv in H as (v & bitsr & Hv & Hr & ->).
    pose proof (hexValue_range rest bitsr Hr) as Hrange.
    pose proof (hexDigitValue_range c v Hv) as Hvr.
    rewrite (pow16_bits bitsr _ (hexToBits_length rest bitsr Hr)), Hv.
    cbn [default]. unfold id. rewrite rev_app_distr.
    set (m := length bitsr) in *.
    assert (Hp : 0 < 2 ^ Z.of_nat m) by (apply Z.pow_pos_nonneg; lia).
    destruct (Nat.lt_ge_cases i m) as [Hlt | Hge].
    + rewrite lookup_app_l by (rewrite length_rev; exact Hlt).
      rewrite (IH bitsr i Hr).
      rewrite <- (Z.mod_pow2_bits_low (v * 2 ^ Z.of_nat m + hexValue rest) (Z.of_nat m))
        by lia.
      rewrite Z.add_comm, Z.mod_add, Z.mod_small by lia. reflexivity.
    + rewrite lookup_app_r by (rewrite length_rev; exact Hge).
      rewrite length_rev. fold m. rewrite (fourBits_lookup v (i - m) Hvr).
      replace (Z.of_nat i) with (Z.of_nat (i - m) + Z.of_nat m) by lia.
      rewrite <- Z.div_pow2_bits by lia.
      rewrite Z.add_comm, Z.div_add, Z.div_small by lia. reflexivity.
Qed.

Lemma omap_pointwise {A B} (f g : A -> option B) (l : list A) :
  (forall a, f a = g a) -> omap f l = omap g l.
Proof.
  intros H. induction l as [|a l IH]; [reflexivity |].
  cbn [omap list_omap] in *. now rewrite (H a), IH.
Qed.

Lemma scanBits_select (selected : nat -> bool) (binValue : list ascii)
    (fields : list AvroField) (k : nat) :
  (forall i, binValue !! i = Some "1"%char <-> selected i = true) ->
  scanBits (drop k binValue) fields
  = omap (fun i => if selected (k + i)%nat then getName <$> fields !! i else None)
         (seq 0 (length fields)).
Proof.
  intros Hsel. revert k. induction fields as [|f fields IH]; intros k.
  - now rewrite scanBits_nil_r.
  - cbn [length seq omap list_omap]. rewrite omap_seq_shift.
    replace (k + 0)%nat with k by lia.
    assert (Hrest : omap (fun i => if selected (k + S i)%nat
                                   then getName <$> (f :: fields) !! S i else None)
                         (seq 0 (length fields))
                    = scanBits (drop (S k) binValue) fields).
    { rewrite (IH (S k)). apply omap_pointwise.
      intros i. now replace (k + S i)%nat with (S k + i)%nat by lia. }
    rewrite Hrest.
    destruct (binValue !! k) as [b|] eqn:Hk.
    + rewrite (drop_S _ _ _ Hk). cbn [scanBits].
      destruct (Ascii.eqb_spec b "1") as [-> | Hne].
      * apply Hsel in Hk. rewrite Hk. reflexivity.
      * destruct (selected k) eqn:Es; [| reflexivity].
        apply Hsel in Es. congruence.
    + rewrite !drop_ge by (apply lookup_ge_None in Hk; lia).
      destruct (selected k) eqn:Es; [| reflexivity].
      apply Hsel in Es. congruence.
Qed.

(** X9. For a bitmap of upper-case hexadecimal digits, the field at index
    [i] is named in the result exactly when bit [i] of the number the digits
    denote is set (bit 0 is the least significant). *)
Theorem bitmap_selects_set_bits (fields : list AvroField) (digits : string) :
  allChars isUpperHex digits = true ->
  getFieldNamesFromBitmap fields ("0x" +:+ digits)
  = namesWhere (fun i => Z.testbit (hexValue digits) (Z.of_nat i)) fields.
Proof.
  intros Hup. destruct (hexToBin_bits digits Hup) as (bits & Hbits & Hchars).
  unfold getFieldNamesFromBitmap, namesWhere. rewrite Hchars, <- map_rev.
  rewrite <- (drop_0 (map bitChar (rev bits))).
  apply (scanBits_select (fun i => Z.testbit (hexValue digits) (Z.of_nat i)) _ fields 0).
  intros i.
  rewrite <- (hexToBits_testbit digits bits i Hbits), list_lookup_fmap.
  destruct (rev bits !! i) as [[]|]; cbn; split; intros H; congruence.
Qed.

Lemma bitmap_selects_set_bits_witness :
  allChars isUpperHex "0A" = true
  /\ getFieldNamesFromBitmap exampleFields "0x0A" = ["B"; "D"]
  /\ hexValue "0A" = 10.
Proof.
  split; [reflexivity |]. split; [| reflexivity].
  exact (eq_trans (bitmap_selects_set_bits exampleFields "0A" eq_refl) eq_refl).
Defined.

(** ** Compound entries *)

Lemma includes_append (c : ascii) (s1 s2 : string) :
  Js.includes c (s1 +:+ s2) = Js.includes c s1 || Js.includes c s2.
Proof.
  induction s1 as [|a s1 IH]; [reflexivity |].
  rewrite append_cons. simpl. now rewrite IH, orb_assoc.
Qed.

Lemma splitAcc_separator (c : ascii) (acc : list ascii) (s1 s2 : string) :
  Js.includes c s1 = false ->
  Js.splitAcc c acc (s1 +:+ String c s2)
  = string_of_list_ascii (rev acc ++ Js.chars s1) :: Js.splitAcc c [] s2.
Proof.
  revert acc. induction s1 as [|a s1 IH]; intros acc H.
  - rewrite append_empty_l. simpl. now rewrite Ascii.eqb_refl, app_nil_r.
  - simpl in H. apply orb_false_elim in H as [Ha Hs].
    rewrite append_cons. simpl. rewrite Ha, (IH _ Hs). simpl.
    now rewrite <- app_assoc.
Qed.

Lemma split_compoundEntry (entry : string * string) :
  Js.includes "-" entry.1 = false ->
  Js.includes "-" entry.2 = false ->
  Js.split "-" (compoundEntry entry) = [entry.1; entry.2].
Proof.
  intros H1 H2. unfold compoundEntry, Js.split.
  change ("-" +:+ entry.2) with (String "-" entry.2).
  rewrite (splitAcc_separator _ _ _ _ H1). simpl rev. rewrite app_nil_l, string_chars.
  f_equal. apply (split_no_separator _ _ H2).
Qed.

Lemma compoundStep_compoundEntry (allFields : list AvroField) (fieldNames : list string)
    (entry : string * string) :
  Js.includes "-" entry.1 = false ->
  Js.includes "-" entry.2 = false ->
  compoundStep allFields fieldNames (compoundEntry entry)
  = (names ← compoundNames allFields entry; OK (fieldNames ++ names)).
Proof.
  intros H1 H2. unfold compoundStep, compoundNames.
  rewrite (split_compoundEntry entry H1 H2).
  now destruct (getChildFields (fieldAt allFields (Js.parseInt entry.1))).
Qed.

Lemma forEach_compound_entries (allFields : list AvroField)
    (entries : list (string * string)) (results : list (list string))
    (fieldNames : list string) :
  Forall dashFree entries ->
  Forall2 (fun entry names => compoundNames allFields entry = OK names) entries results ->
  forEachExc (compoundStep allFields) (map compoundEntry entries) fieldNames
  = OK (fieldNames ++ concat results).
Proof.
  intros Hfree Hres. revert fieldNames.
  induction Hres as [|entry names entries results Hentry _ IH]; intros fieldNames.
  - simpl. now rewrite app_nil_r.
  - apply Forall_cons in Hfree as [[H1 H2] Hfree].
    cbn [map forEachExc]. rewrite (compoundStep_compoundEntry _ _ _ H1 H2), Hentry.
    cbn [mbind Exc_bind]. rewrite (IH Hfree). cbn [concat]. now rewrite app_assoc.
Qed.

Lemma last_compound_entries (top : string) (entries : list (string * string)) :
  entries <> [] ->
  Js.includes "-" (List.last (top :: map compoundEntry entries) "") = true.
Proof.
  intros Hne. destruct entries as [|e entries _] using rev_ind; [congruence |].
  rewrite map_app. cbn [map]. rewrite app_comm_cons, last_last.
  unfold compoundEntry. rewrite !includes_append. simpl. now rewrite orb_true_r.
Qed.

Lemma parseFieldBitmaps_compound (allFields : list AvroField) (top : string)
    (entries : list (string * string)) :
  Js.includes "-" top = false ->
  entries <> [] ->
  parseFieldBitmaps allFields (top :: map compoundEntry entries)
  = forEachExc (compoundStep allFields) (map compoundEntry entries)
      (if Js.startsWith "0x" top then getFieldNamesFromBitmap allFields top else []).
Proof.
  intros Htop Hne. unfold parseFieldBitmaps.
  rewrite (last_compound_entries top entries Hne), andb_true_r.
  replace (1 <? Z.of_nat (length (top :: map compoundEntry entries))) with true.
  - cbn [forEachExc]. rewrite (compoundStep_top_level _ _ _ Htop). reflexivity.
  - symmetry. apply Z.ltb_lt. destruct entries; [congruence | simpl; lia].
Qed.

(** X10. Compound entries are resolved in input order after the top-level
    entry: when every entry [index-bitmap] names a parent field with child
    fields, the result is the names of the top-level bitmap followed by the
    names of each entry, which are the names its bitmap selects among the
    children of the parent, each prefixed by the parent's name and a dot. *)
Theorem compound_entries_in_order (allFields : list AvroField) (top : string)
    (entries : list (string * string)) (results : list (list string)) :
  Js.includes "-" top = false ->
  entries <> [] ->
  Forall dashFree entries ->
  Forall2 (fun entry names => compoundNames allFields entry = OK names) entries results ->
  parseFieldBitmaps allFields (top :: map compoundEntry entries)
  = OK ((if Js.startsWith "0x" top then getFieldNamesFromBitmap allFields top else [])
        ++ concat results).
Proof.
  intros Htop Hne Hfree Hres.
  rewrite (parseFieldBitmaps_compound _ _ _ Htop Hne).
  apply forEach_compound_entries; assumption.
Qed.

Lemma compound_entries_in_order_witness :
  parseFieldBitmaps exampleFields ["0x0C"; "1-0x02"; "1-0x01"]
  = OK ["C"; "D"; "B.c1"; "B.c0"].
Proof.
  refine (eq_trans (compound_entries_in_order exampleFields "0x0C"
                      [("1", "0x02"); ("1", "0x01")] [["B.c1"]; ["B.c0"]]
                      eq_refl _ _ _) eq_refl).
  - discriminate.
  - repeat constructor.
  - repeat constructor.
Defined.



(** ** More on flattening *)

Lemma flatten_array (items : list JsValue) :
  flattenSinglePropertyObjects (JsArray items) = JsArray (map (flattenEntry "0") items).
Proof.
  cbn [flattenSinglePropertyObjects]. f_equal. apply map_ext. intros value.
  unfold flattenEntry. change (String.eqb "0" ChangeEventHeader) with false. cbv iota.
  destruct value as [| | | | |[|? [|? ?]]|[|[? ?] [|? ?]]]; reflexivity.
Qed.

Lemma jsSize_soleValue (value subValue : JsValue) :
  soleValue value = Some subValue -> (jsSize subValue < jsSize value)%nat.
Proof.
  destruct value as [| | | | |[|? [|? ?]]|[|[? ?] [|? ?]]]; try discriminate;
    intros H; injection H as <-; simpl; lia.
Qed.

Lemma list_sum_map_le {A} (f g : A -> nat) (l : list A) :
  Forall (fun a => (f a <= g a)%nat) l -> (list_sum (map f l) <= list_sum (map g l))%nat.
Proof. induction 1 as [|a l Ha _ IH]; simpl; lia. Qed.

Lemma list_sum_map_elem {A} (f : A -> nat) (l : list A) (a : A) :
  a ∈ l -> (f a <= list_sum (map f l))%nat.
Proof. induction 1 as [|? ? ? _ IH]; simpl; lia. Qed.

Lemma flatten_size_bounded (n : nat) (v : JsValue) :
  (jsSize v <= n)%nat -> (jsSize (flattenSinglePropertyObjects v) <= jsSize v)%nat.
Proof.
  revert v. induction n as [|n IH]; intros v Hn.
  - destruct v; simpl in Hn; lia.
  - assert (Hentry : forall key value, (jsSize value <= n)%nat ->
              (jsSize (flattenEntry key value) <= jsSize value)%nat).
    { intros key value Hv. unfold flattenEntry.
      destruct (String.eqb key ChangeEventHeader); [lia |].
      destruct (soleValue value) as [subValue|] eqn:Hs; [| lia].
      pose proof (jsSize_soleValue _ _ Hs) as Hlt.
      destruct (isObject subValue); [| lia].
      specialize (IH subValue). lia. }
    destruct v as [| | | | |items|props]; try (simpl; lia).
    + rewrite flatten_array. cbn [jsSize] in *. rewrite map_map.
      apply le_n_S, list_sum_map_le, Forall_forall. intros value Hin.
      apply Hentry. pose proof (list_sum_map_elem jsSize items value Hin). lia.
    + rewrite flatten_object. cbn [jsSize] in *. rewrite map_map. cbn [snd].
      apply le_n_S, list_sum_map_le, Forall_forall. intros [key value] Hin. cbn [fst snd].
      apply Hentry.
      pose proof (list_sum_map_elem (fun kv => jsSize kv.2) props (key, value) Hin).
      cbn [snd] in *. lia.
Qed.

(** X12. Flattening never adds anything: the flattened value has at most
    as many values (objects, arrays and primitives, at every depth) as the
    value it was given. *)
Theorem flatten_never_grows (v : JsValue) :
  (jsSize (flattenSinglePropertyObjects v) <= jsSize v)%nat.
Proof. apply (flatten_size_bounded (jsSize v)). lia. Qed.

Lemma flattenEntry_plain (key : string) (value : JsValue) :
  isPlainField value = true ->
  flattenEntry key value
  = if String.eqb key ChangeEventHeader then value else unwrapField value.
Proof.
  intros H. unfold flattenEntry. destruct (String.eqb key ChangeEventHeader); [reflexivity |].
  destruct value as [| | | | |[|? [|? ?]]|[|[? inner] [|? ?]]]; try reflexivity;
    try discriminate H.
  cbn [isPlainField] in H. unfold isPrimitive in H. cbn [soleValue unwrapField].
  destruct (isObject inner); [discriminate H | reflexivity].
Qed.

Lemma unwrapField_clean (value : JsValue) :
  isPlainField value = true ->
  soleValue (unwrapField value) = None /\ noWrapperLeft (unwrapField value) = true.
Proof.
  destruct value as [| | | | |[|? [|? ?]]|[|[? inner] [|? ?]]]; try discriminate;
    intros H; cbn [unwrapField]; try (split; reflexivity).
  cbn [isPlainField] in H. destruct inner; try discriminate H; split; reflexivity.
Qed.

(** X13. On a record all of whose fields are primitives or primitives in
    one single-key wrapper (fields of primitive type, nullable or not),
    flattening is complete: every field other than [ChangeEventHeader] holds
    its primitive, and no single-key wrapper is left outside the header. *)
Theorem flatten_plain_record (props : list (string * JsValue)) :
  Forall (fun kv => isPlainField kv.2 = true) props ->
  flattenSinglePropertyObjects (JsObject props)
  = JsObject (map (fun kv => (kv.1, if String.eqb kv.1 ChangeEventHeader then kv.2
                                    else unwrapField kv.2)) props)
  /\ noWrapperLeft (flattenSinglePropertyObjects (JsObject props)) = true.
Proof.
  intros Hplain.
  assert (Hflat : flattenSinglePropertyObjects (JsObject props)
                  = JsObject (map (fun kv => (kv.1, if String.eqb kv.1 ChangeEventHeader
                                                    then kv.2 else unwrapField kv.2)) props)).
  { rewrite flatten_object. f_equal.
    induction Hplain as [|[key value] props Hv _ IH]; [reflexivity |].
    cbn [map fst snd] in *. now rewrite IH, (flattenEntry_plain key value Hv). }
  split; [exact Hflat |]. rewrite Hflat. clear Hflat. cbn [noWrapperLeft].
  induction Hplain as [|[key value] props Hv _ IH]; [reflexivity |].
  cbn [map forallb fst snd] in *. rewrite IH, andb_true_r.
  destruct (String.eqb key ChangeEventHeader); [reflexivity |].
  destruct (unwrapField_clean value Hv) as [-> ->]. reflexivity.
Qed.

Lemma flatten_plain_record_witness :
  flattenSinglePropertyObjects
    (JsObject [("Name", JsObject [("string", JsString "Acme")]);
               ("Active", JsBoolean true);
               ("Parent", JsNull)])
  = JsObject [("Name", JsString "Acme"); ("Active", JsBoolean true); ("Parent", JsNull)].
Proof.
  refine (eq_trans (proj1 (flatten_plain_record _ _)) eq_refl).
  repeat constructor.
Defined.

(** ** [parseEvent] *)

Lemma getProp_setProp_eq (key : string) (value : JsValue) (props : list (string * JsValue)) :
  getProp key (setProp key value props) = Some value.
Proof.
  induction props as [|[k v] props IH]; cbn [setProp getProp].
  - now rewrite String.eqb_refl.
  - destruct (String.eqb k key) eqn:E; cbn [getProp]; rewrite E; [reflexivity | exact IH].
Qed.

Lemma getProp_setProp_ne (key key' : string) (value : JsValue)
    (props : list (string * JsValue)) :
  key <> key' -> getProp key' (setProp key value props) = getProp key' props.
Proof.
  intros Hne. induction props as [|[k v] props IH]; cbn [setProp getProp].
  - now replace (String.eqb key key') with false by (symmetry; now apply String.eqb_neq).
  - destruct (String.eqb k key) eqn:E; cbn [getProp].
    + apply String.eqb_eq in E. subst k.
      now replace (String.eqb key key') with false by (symmetry; now apply String.eqb_neq).
    + now rewrite IH.
Qed.

Lemma setProp_keys (key : string) (value old : JsValue) (props : list (string * JsValue)) :
  getProp key props = Some old -> map fst (setProp key value props) = map fst props.
Proof.
  induction props as [|[k v] props IH]; cbn [setProp getProp]; [discriminate |].
  destruct (String.eqb k key) eqn:E; intros H; cbn [map fst]; [reflexivity |].
  now rewrite (IH H).
Qed.

Lemma stringItems_strings (l : list string) : stringItems (map JsString l) = Some l.
Proof. induction l as [|s l IH]; [reflexivity |]. cbn [map stringItems]. now rewrite IH. Qed.

Lemma resolveHeaderField_strings (allFields : list AvroField) (f : string)
    (header : list (string * JsValue)) (bitmaps : list string) :
  getProp f header = Some (JsArray (map JsString bitmaps)) ->
  resolveHeaderField allFields f header
  = Some (names ← parseFieldBitmaps allFields bitmaps;
          OK (setProp f (JsArray (map JsString names)) header)).
Proof. intros H. unfold resolveHeaderField. now rewrite H, stringItems_strings. Qed.

Lemma decodeReplayId_too_short (buf : Buffer) :
  (length buf < 8)%nat -> exists message, decodeReplayId buf = Throw (RangeError message).
Proof.
  intros Hlen.
  do 8 (destruct buf as [|? buf]; [eexists; reflexivity |]). simpl in Hlen. lia.
Qed.

Section ParseEventProperties.

Variable fromBuffer : Schema -> Buffer -> Exc JsValue.

(** X14. A change event is decoded with its header resolved and kept: when
    the three bitmap lists of [ChangeEventHeader] resolve, the parsed
    payload has the keys of the decoded payload, its header has the keys of
    the decoded header, holds the three lists of field names in place of the
    bitmaps, and every other attribute of the header is as decoded, not
    flattened. *)
Theorem parseEvent_resolves_header
    (schema : Schema) (ev : ConsumerEvent) (inner : ProducerEvent) (replay : Z)
    (props header : list (string * JsValue))
    (nulled diff changed nulledNames diffNames changedNames : list string) :
  event ev = Some inner ->
  decodeReplayId (replayId ev) = OK replay ->
  fromBuffer schema (payload inner) = OK (JsObject props) ->
  getProp ChangeEventHeader props = Some (JsObject header) ->
  getProp "nulledFields" header = Some (JsArray (map JsString nulled)) ->
  getProp "diffFields" header = Some (JsArray (map JsString diff)) ->
  getProp "changedFields" header = Some (JsArray (map JsString changed)) ->
  parseFieldBitmaps (schema_fields schema) nulled = OK nulledNames ->
  parseFieldBitmaps (schema_fields schema) diff = OK diffNames ->
  parseFieldBitmaps (schema_fields schema) changed = OK changedNames ->
  exists props' header',
    parseEvent fromBuffer schema ev
    = Some (OK {| parsed_replayId := replay; parsed_payload := JsObject props' |})
    /\ map fst props' = map fst props
    /\ getProp ChangeEventHeader props' = Some (JsObject header')
    /\ map fst header' = map fst header
    /\ getProp "nulledFields" header' = Some (JsArray (map JsString nulledNames))
    /\ getProp "diffFields" header' = Some (JsArray (map JsString diffNames))
    /\ getProp "changedFields" header' = Some (JsArray (map JsString changedNames))
    /\ (forall key, key <> "nulledFields" -> key <> "diffFields" -> key <> "changedFields" ->
        getProp key header' = getProp key header).
Proof.
  intros Hev Hreplay Hdecoded Hheader Hn Hd Hc Pn Pd Pc.
  set (h1 := setProp "nulledFields" (JsArray (map JsString nulledNames)) header).
  set (h2 := setProp "diffFields" (JsArray (map JsString diffNames)) h1).
  set (h3 := setProp "changedFields" (JsArray (map JsString changedNames)) h2).
  assert (Hd1 : getProp "diffFields" h1 = Some (JsArray (map JsString diff)))
    by (unfold h1; now rewrite getProp_setProp_ne).
  assert (Hc2 : getProp "changedFields" h2 = Some (JsArray (map JsString changed)))
    by (unfold h2, h1; now rewrite !getProp_setProp_ne).
  assert (Hparse : parseHeader (schema_fields schema) header = Some (OK h3)).
  { unfold parseHeader, resolveHeaderFieldOr.
    rewrite (resolveHeaderField_strings _ _ _ _ Hn), Pn. cbn [mbind Exc_bind]. fold h1.
    rewrite (resolveHeaderField_strings _ _ _ _ Hd1), Pd. cbn [mbind Exc_bind]. fold h2.
    rewrite (resolveHeaderField_strings _ _ _ _ Hc2), Pc. reflexivity. }
  exists (map (fun kv => (kv.1, flattenEntry kv.1 kv.2))
              (setProp ChangeEventHeader (JsObject h3) props)), h3.
  split; [| split; [| split; [| split; [| split; [| split; [| split]]]]]].
  - unfold parseEvent. rewrite Hev, Hreplay, Hdecoded.
    unfold withParsedHeader. rewrite Hheader. cbn [truthy]. rewrite Hparse.
    now rewrite flatten_object.
  - rewrite map_map. cbn [fst]. apply (setProp_keys _ _ _ _ Hheader).
  - rewrite getProp_map, getProp_setProp_eq. reflexivity.
  - unfold h3. rewrite (setProp_keys _ _ _ _ Hc2).
    unfold h2. rewrite (setProp_keys _ _ _ _ Hd1).
    apply (setProp_keys _ _ _ _ Hn).
  - unfold h3, h2, h1. rewrite !getProp_setProp_ne by discriminate.
    apply getProp_setProp_eq.
  - unfold h3, h2. rewrite getProp_setProp_ne by discriminate. apply getProp_setProp_eq.
  - apply getProp_setProp_eq.
  - intros key K1 K2 K3. unfold h3, h2, h1. now rewrite !getProp_setProp_ne by congruence.
Qed.

(** X15. No partial success on the header: when [nulledFields] resolves
    and resolving [diffFields] throws, the event fails with an
    [EventParseError] that carries the cause and no replay id, whatever
    [changedFields] holds; its message is the one of [nulledFields]. *)
Theorem parseEvent_diffFields_failure
    (schema : Schema) (ev : ConsumerEvent) (inner : ProducerEvent) (replay : Z)
    (props header : list (string * JsValue))
    (nulled diff nulledNames : list string) (e : JsError) :
  event ev = Some inner ->
  decodeReplayId (replayId ev) = OK replay ->
  fromBuffer schema (payload inner) = OK (JsObject props) ->
  getProp ChangeEventHeader props = Some (JsObject header) ->
  getProp "nulledFields" header = Some (JsArray (map JsString nulled)) ->
  getProp "diffFields" header = Some (JsArray (map JsString diff)) ->
  parseFieldBitmaps (schema_fields schema) nulled = OK nulledNames ->
  parseFieldBitmaps (schema_fields schema) diff = Throw e ->
  parseEvent fromBuffer schema ev
  = Some (Throw (EventParseError "Failed to parse nulledFields" e None None None)).
Proof.
  intros Hev Hreplay Hdecoded Hheader Hn Hd Pn Pd.
  unfold parseEvent. rewrite Hev, Hreplay, Hdecoded.
  unfold withParsedHeader. rewrite Hheader. cbn [truthy].
  unfold parseHeader, resolveHeaderFieldOr.
  rewrite (resolveHeaderField_strings _ _ _ _ Hn), Pn. cbn [mbind Exc_bind].
  assert (Hd1 : getProp "diffFields"
                  (setProp "nulledFields" (JsArray (map JsString nulledNames)) header)
                = Some (JsArray (map JsString diff)))
    by now rewrite getProp_setProp_ne.
  rewrite (resolveHeaderField_strings _ _ _ _ Hd1), Pd. reflexivity.
Qed.

(** X16. The order of the checks of [parseEvent]: an event without event
    data fails with the [EventParseError] for missing data before anything
    is decoded; with event data, a replay id shorter than 8 bytes fails with
    the bare [RangeError] of the read before the payload is decoded; with a
    decodable replay id, an error of the Avro decoder is thrown as it is. *)
Theorem parseEvent_check_order (schema : Schema) (ev : ConsumerEvent) :
  (event ev = None ->
   exists message cause,
     parseEvent fromBuffer schema ev
     = Some (Throw (EventParseError message cause None None None)))
  /\ (forall inner, event ev = Some inner -> (length (replayId ev) < 8)%nat ->
      exists message, parseEvent fromBuffer schema ev = Some (Throw (RangeError message)))
  /\ (forall inner e, event ev = Some inner -> (8 <= length (replayId ev))%nat ->
      fromBuffer schema (payload inner) = Throw e ->
      parseEvent fromBuffer schema ev = Some (Throw e)).
Proof.
  unfold parseEvent. split; [| split].
  - intros ->. eexists _, _. reflexivity.
  - intros inner -> Hlen.
    destruct (decodeReplayId_too_short _ Hlen) as [message ->]. now exists message.
  - intros inner e -> Hlen Hdec.
    now rewrite (decodeReplayId_at_least_eight _ Hlen), Hdec.
Qed.

End ParseEventProperties.

(** ** Subscribing and disconnecting *)

(** X17. On a client that is not connected [#subscribe] fails whatever the
    request, opens no stream and writes nothing. *)
Theorem subscribe_not_connected (r : SubscribeRequest) (c : PubSubApiClient) :
  client c = false ->
  exists e, fst (subscribe r c) = Throw e
            /\ client (snd (subscribe r c)) = false
            /\ subscriptions (snd (subscribe r c)) = subscriptions c.
Proof.
  intros Hc. unfold subscribe.
  destruct (checkNumRequested (sr_numRequested r)) as [[[isInfinite n] warned]|e].
  - destruct warned; cbn [warn client subscriptions]; rewrite Hc; cbn [negb fst snd];
      eexists; repeat split; assumption.
  - eexists. repeat split; assumption.
Qed.

Lemma subscribe_not_connected_witness :
  exists e,
    fst (subscribe boundedRequest {| client := false; subscriptions := ∅; warnings := [] |})
    = Throw e.
Proof.
  destruct (subscribe_not_connected boundedRequest
              {| client := false; subscriptions := ∅; warnings := [] |} eq_refl)
    as (e & He & _).
  exists e. exact He.
Defined.

Lemma subscribe_shape (r : SubscribeRequest) (c c' : PubSubApiClient)
    (sub : Subscription) :
  subscribe r c = (OK sub, c') ->
  written (sr_topicName r) c'
  = written (sr_topicName r) c
    ++ [{| topicName := sr_topicName r;
           numRequested := requestedEventCount (eventEmitter sub);
           replayPreset := sr_replayPreset r; fr_replayId := sr_replayId r |}]
  /\ is_Some (subscriptions c' !! sr_topicName r)
  /\ receivedEventCount (eventEmitter sub) = 0
  /\ emitted (eventEmitter sub) = []
  /\ em_topicName (eventEmitter sub) = sr_topicName r
  /\ (forall topic, topic <> sr_topicName r ->
      subscriptions c' !! topic = subscriptions c !! topic).
Proof.
  unfold subscribe, written. intros H.
  destruct (checkNumRequested (sr_numRequested r)) as [[[isInfinite n] warned]|e];
    [| discriminate H].
  destruct (negb (client (if warned then _ else c))); [discriminate H |].
  injection H as <- <-. cbn [eventEmitter newPubSubEventEmitter requestedEventCount
                              receivedEventCount emitted em_topicName subscriptions].
  assert (Hsubs : subscriptions (if warned then warn exceedsBatchWarning c else c)
                  = subscriptions c) by now destruct warned.
  fold exceedsBatchWarning. rewrite Hsubs, lookup_insert_eq. cbn [default].
  repeat split; [eexists; reflexivity |].
  intros topic Hne. now rewrite lookup_insert_ne.
Qed.


(** X18. A successful [#subscribe] writes exactly one request, after those
    already written to the stream of the topic (an open stream is reused),
    with the replay preset and replay id of the call and the count the new
    emitter tracks; the emitter starts with no event received; the streams
    of the other topics are left alone. *)
Theorem subscribe_appends_request (r : SubscribeRequest) (c c' : PubSubApiClient)
    (sub : Subscription) :
  subscribe r c = (OK sub, c') ->
  written (sr_topicName r) c'
  = written (sr_topicName r) c
    ++ [{| topicName := sr_topicName r;
           numRequested := requestedEventCount (eventEmitter sub);
           replayPreset := sr_replayPreset r; fr_replayId := sr_replayId r |}]
  /\ is_Some (subscriptions c' !! sr_topicName r)
  /\ receivedEventCount (eventEmitter sub) = 0
  /\ emitted (eventEmitter sub) = []
  /\ em_topicName (eventEmitter sub) = sr_topicName r
  /\ (forall topic, topic <> sr_topicName r ->
      subscriptions c' !! topic = subscriptions c !! topic).
Proof. apply subscribe_shape. Qed.

Lemma subscribe_appends_request_witness :
  written "/event/T" (snd (subscribe boundedRequest connectedClient))
  = [{| topicName := "/event/T"; numRequested := 3;
        replayPreset := None; fr_replayId := None |}].
Proof.
  exact (proj1 (subscribe_appends_request boundedRequest connectedClient
                  (snd (subscribe boundedRequest connectedClient))
                  {| eventEmitter := newPubSubEventEmitter "/event/T" 3;
                     isInfiniteEventRequest := false |} eq_refl)).
Defined.

Lemma encodeReplayId_ok (replay : Z) (encoded : Buffer) :
  encodeReplayId replay = OK encoded ->
  length encoded = 8%nat /\ bigEndian encoded = replay.
Proof.
  unfold encodeReplayId. intros Hw.
  assert (Hr : 0 <= replay < 2 ^ 64).
  { unfold writeBigUInt64BE in Hw.
    destruct ((replay <? 0) || (2 ^ 64 - 1 <? replay)) eqn:E; [discriminate Hw |].
    apply orb_false_elim in E as [E1 E2]. apply Z.ltb_ge in E1, E2. lia. }
  pose proof (readBigUInt64BE_write replay Hr) as Hrw. rewrite Hw in Hrw.
  unfold writeBigUInt64BE in Hw.
  destruct ((replay <? 0) || (2 ^ 64 - 1 <? replay)); [discriminate Hw |].
  injection Hw as <-. split; [reflexivity |].
  cbn [mbind Exc_bind] in Hrw. rewrite readBigUInt64BE_eight in Hrw. now injection Hrw.
Qed.

(** X19. [subscribeFromReplayId] puts the replay id on the wire: on success
    the request appended to the stream of the topic has replay preset 2 and
    a replay id of 8 bytes whose big-endian value is the given replay id. A
    replay id below 0 or from [2^64] up makes the call throw the bare
    [RangeError] of the encoder and leaves the client as it was. *)
Theorem subscribeFromReplayId_request (topic : string) (requested : JsValue) (replay : Z)
    (c : PubSubApiClient) :
  (forall sub c', subscribeFromReplayId topic requested replay c = (OK sub, c') ->
     exists encoded,
       written topic c'
       = written topic c
         ++ [{| topicName := topic;
                numRequested := requestedEventCount (eventEmitter sub);
                replayPreset := Some 2; fr_replayId := Some encoded |}]
       /\ length encoded = 8%nat /\ bigEndian encoded = replay)
  /\ (replay < 0 \/ 2 ^ 64 <= replay ->
      exists message,
        subscribeFromReplayId topic requested replay c = (Throw (RangeError message), c)).
Proof.
  unfold subscribeFromReplayId. split.
  - intros sub c' H.
    destruct (encodeReplayId replay) as [encoded|e] eqn:Henc; [| discriminate H].
    destruct (encodeReplayId_ok _ _ Henc) as [Hlen Hval]. exists encoded.
    split; [| split; assumption].
    exact (proj1 (subscribe_shape _ c c' sub H)).
  - intros Hout. unfold encodeReplayId, writeBigUInt64BE.
    replace ((replay <? 0) || (2 ^ 64 - 1 <? replay)) with true; [eexists; reflexivity |].
    symmetry. apply orb_true_intro.
    destruct Hout; [left | right]; apply Z.ltb_lt; lia.
Qed.

Lemma subscribeFromReplayId_request_witness :
  exists encoded,
    written "/event/T"
      (snd (subscribeFromReplayId "/event/T" JsNull 258 connectedClient))
    = [{| topicName := "/event/T"; numRequested := 100;
          replayPreset := Some 2; fr_replayId := Some encoded |}]
    /\ bigEndian encoded = 258.
Proof.
  destruct (proj1 (subscribeFromReplayId_request "/event/T" JsNull 258 connectedClient)
              {| eventEmitter := newPubSubEventEmitter "/event/T" 100;
                 isInfiniteEventRequest := true |}
              (snd (subscribeFromReplayId "/event/T" JsNull 258 connectedClient))
              eq_refl) as (encoded & Hw & _ & Hv).
  exists encoded. split; [exact Hw | exact Hv].
Defined.

Lemma fold_delete_all {V} (l : list (string * V)) (m : gmap string V) :
  (forall k v, m !! k = Some v -> k ∈ map fst l) ->
  fold_left (fun m entry => delete entry.1 m) l m = ∅.
Proof.
  revert m. induction l as [|[k0 v0] l IH]; intros m Hall.
  - cbn [fold_left]. apply map_empty. intros k.
    destruct (m !! k) as [v|] eqn:E; [| reflexivity].
    specialize (Hall k v E). cbn in Hall. now apply elem_of_nil in Hall.
  - cbn [fold_left fst]. apply IH. intros k v Hk.
    apply lookup_delete_Some in Hk as [Hne Hk].
    specialize (Hall k v Hk). cbn [map fst] in Hall.
    apply elem_of_cons in Hall as [-> | Hin]; [congruence | exact Hin].
Qed.

(** X20. [disconnect] on a connected client leaves no stream in the map and
    no client, without logging; on a client that is not connected it only
    logs a warning, so a second call changes nothing but the log. After
    [disconnect] every [#subscribe] fails, and after the [disconnect] of a
    connected client so does every request for additional events. *)
Theorem disconnect_clears (c : PubSubApiClient) :
  (client c = true ->
     client (disconnect c) = false
     /\ subscriptions (disconnect c) = ∅
     /\ warnings (disconnect c) = warnings c
     /\ disconnect (disconnect c) = warn "Client is not connected." (disconnect c)
     /\ forall em n, exists e, requestAdditionalEvents em n (disconnect c) = Throw e)
  /\ (client c = false -> disconnect c = warn "Client is not connected." c)
  /\ (forall r, exists e, fst (subscribe r (disconnect c)) = Throw e).
Proof.
  assert (Hoff : client (disconnect c) = false).
  { unfold disconnect. destruct (client c) eqn:E; [reflexivity | exact E]. }
  split; [| split].
  - intros Hc.
    assert (Hempty : subscriptions (disconnect c) = ∅).
    { unfold disconnect. rewrite Hc. cbn [subscriptions].
      apply fold_delete_all. intros k v Hk.
      apply list_elem_of_In. apply (in_map fst _ (k, v)).
      apply list_elem_of_In. now apply elem_of_map_to_list. }
    split; [exact Hoff |]. split; [exact Hempty |].
    split; [unfold disconnect; now rewrite Hc |].
    split; [unfold disconnect at 1; now rewrite Hoff |].
    intros em n. unfold requestAdditionalEvents. rewrite Hempty, lookup_empty.
    eexists. reflexivity.
  - intros Hc. unfold disconnect. now rewrite Hc.
  - intros r. unfold subscribe.
    destruct (checkNumRequested (sr_numRequested r)) as [[[isInfinite n] warned]|e];
      [| eexists; reflexivity].
    destruct warned; cbn [warn client]; rewrite Hoff; eexists; reflexivity.
Qed.

Lemma disconnect_clears_witness :
  client (snd (subscribe boundedRequest connectedClient)) = true
  /\ subscriptions (disconnect (snd (subscribe boundedRequest connectedClient))) = ∅.
Proof.
  split; [reflexivity |].
  apply (proj1 (disconnect_clears (snd (subscribe boundedRequest connectedClient)))).
  reflexivity.
Defined.

Lemma parseEvent_resolves_header_witness :
  exists props' header',
    parseEvent exampleFromBuffer exampleSchema (changeEvent [] x07)
    = Some (OK {| parsed_replayId := 7; parsed_payload := JsObject props' |})
    /\ getProp ChangeEventHeader props' = Some (JsObject header')
    /\ getProp "changedFields" header' = Some (JsArray [JsString "A"; JsString "C"])
    /\ getProp "entityName" header' = Some (JsObject [("string", JsString "Account")]).
Proof.
  destruct (parseEvent_resolves_header exampleFromBuffer exampleSchema (changeEvent [] x07)
              {| pe_id := "id"; schemaId := "s1"; payload := [] |} 7
              [("ChangeEventHeader", exampleHeader []);
               ("Name", JsObject [("string", JsString "Acme")])]
              [("entityName", JsObject [("string", JsString "Account")]);
               ("nulledFields", JsArray []); ("diffFields", JsArray []);
               ("changedFields", JsArray [JsString "0x05"])]
              [] [] ["0x05"] [] [] ["A"; "C"]
              eq_refl eq_refl eq_refl eq_refl eq_refl eq_refl eq_refl eq_refl eq_refl eq_refl)
    as (props' & header' & Hparse & _ & Hheader & _ & _ & _ & Hchanged & Hother).
  exists props', header'. split; [exact Hparse |]. split; [exact Hheader |].
  split; [exact Hchanged |].
  rewrite Hother by discriminate. reflexivity.
Defined.

Lemma parseEvent_diffFields_failure_witness :
  parseEvent exampleFromBuffer exampleSchema (changeEvent [x00] x07)
  = Some (Throw (EventParseError "Failed to parse nulledFields"
                   (TypeError "Cannot read properties of undefined (reading '_type')")
                   None None None)).
Proof.
  exact (parseEvent_diffFields_failure exampleFromBuffer exampleSchema (changeEvent [x00] x07)
           {| pe_id := "id"; schemaId := "s1"; payload := [x00] |} 7
           [("ChangeEventHeader", exampleHeader [JsString "0x00"; JsString "9-0x01"]);
            ("Name", JsObject [("string", JsString "Acme")])]
           [("entityName", JsObject [("string", JsString "Account")]);
            ("nulledFields", JsArray []);
            ("diffFields", JsArray [JsString "0x00"; JsString "9-0x01"]);
            ("changedFields", JsArray [JsString "0x05"])]
           [] ["0x00"; "9-0x01"] []
           (TypeError "Cannot read properties of undefined (reading '_type')")
           eq_refl eq_refl eq_refl eq_refl eq_refl eq_refl eq_refl eq_refl).
Defined.

Lemma parseEvent_check_order_witness :
  (exists message,
     parseEvent exampleFromBuffer exampleSchema
       {| event := Some {| pe_id := "id"; schemaId := "s1"; payload := [] |};
          replayId := [x01; x02] |}
     = Some (Throw (RangeError message)))
  /\ parseEvent exampleFromBuffer exampleSchema (changeEvent [x00; x00] x07)
     = Some (Throw (Error "truncated" None)).
Proof.
  split.
  - apply (proj1 (proj2 (parseEvent_check_order exampleFromBuffer exampleSchema
                           {| event := Some {| pe_id := "id"; schemaId := "s1";
                                               payload := [] |};
                              replayId := [x01; x02] |}))
             {| pe_id := "id"; schemaId := "s1"; payload := [] |} eq_refl).
    simpl; lia.
  - apply (proj2 (proj2 (parseEvent_check_order exampleFromBuffer exampleSchema
                           (changeEvent [x00; x00] x07)))
             {| pe_id := "id"; schemaId := "s1"; payload := [x00; x00] |}
             (Error "truncated" None) eq_refl).
    + simpl; lia.
    + reflexivity.
Defined.

(** ** Flow control over whole batches *)

Section FlowControl.

Variable getEventSchemaFromId : string -> Exc Schema.
Variable parseEvent : Schema -> ConsumerEvent -> Exc ParsedEvent.

Let signal := eventSignal getEventSchemaFromId parseEvent.
Let run := onEvent getEventSchemaFromId parseEvent.

(** Past the requested count an iteration only emits. *)
Lemma fold_onEvent_past (isInfinite : bool) (latest : Z) (evs : list ConsumerEvent)
    (st : Engine) :
  requestedEventCount (emitter st) <= receivedEventCount (emitter st) ->
  fold_left (run isInfinite latest) evs st
  = {| emitter :=
         {| em_topicName := em_topicName (emitter st);
            requestedEventCount := requestedEventCount (emitter st);
            receivedEventCount := receivedEventCount (emitter st) + Z.of_nat (length evs);
            emitted := emitted (emitter st) ++ map (signal latest) evs |};
       api := api st |}.
Proof.
  revert st. induction evs as [|ev evs IH]; intros st Hle.
  - destruct st as [[topic requested received log] c]. simpl.
    now rewrite Z.add_0_r, app_nil_r.
  - cbn [fold_left]. unfold run at 2. rewrite onEvent_below by lia.
    fold run. rewrite IH.
    + unfold emitOn, emit. cbn [emitter api em_topicName requestedEventCount
                                receivedEventCount emitted].
      rewrite eventSignal_reportsEvent, <- app_assoc. cbn [length map app].
      do 2 f_equal. lia.
    + unfold emitOn, emit. cbn [emitter api em_topicName requestedEventCount
                                receivedEventCount emitted].
      rewrite eventSignal_reportsEvent. lia.
Qed.

(** X21. Bounded mode over any batch: from a fresh emitter for [m] events
    the handler never writes to a stream, counts every event of the message,
    and emits [lastevent] once if the message has at least [m] events and
    not at all otherwise; events after the [m]-th are still reported. *)
Theorem bounded_lastevent_once (topic : string) (m : Z) (c : PubSubApiClient)
    (data : FetchResponse) (evs : list ConsumerEvent) (latest : Z) :
  1 <= m ->
  events data = Some evs ->
  decodeReplayId (latestReplayId data) = OK latest ->
  exists st',
    onData getEventSchemaFromId parseEvent false data
           {| emitter := newPubSubEventEmitter topic m; api := c |} = OK st'
    /\ api st' = c
    /\ receivedEventCount (emitter st') = Z.of_nat (length evs)
    /\ requestedEventCount (emitter st') = m
    /\ List.filter reportsEvent (emitted (emitter st'))
       = map (eventSignal getEventSchemaFromId parseEvent latest) evs
    /\ countSignals isLastevent (emitted (emitter st'))
       = if m <=? Z.of_nat (length evs) then 1%nat else 0%nat.
Proof.
  intros Hm Hevs Hlatest. unfold onData. rewrite Hlatest, Hevs. cbn [mbind Exc_bind].
  eexists. split; [reflexivity |].
  pose proof (fold_onEvent_reported getEventSchemaFromId parseEvent false latest evs
                {| emitter := newPubSubEventEmitter topic m; api := c |}) as Hrep.
  cbn [emitter newPubSubEventEmitter emitted List.filter app] in Hrep.
  cut (let st' := fold_left (run false latest) evs
                    {| emitter := newPubSubEventEmitter topic m; api := c |} in
       api st' = c
       /\ receivedEventCount (emitter st') = Z.of_nat (length evs)
       /\ requestedEventCount (emitter st') = m
       /\ countSignals isLastevent (emitted (emitter st'))
          = if m <=? Z.of_nat (length evs) then 1%nat else 0%nat).
  { intros (H1 & H2 & H3 & H4). repeat split; assumption. }
  clear Hrep Hevs. intros st'. subst st'.
  destruct (m <=? Z.of_nat (length evs)) eqn:E.
  - apply Z.leb_le in E.
    pose (pre := take (Z.to_nat m) evs). pose (post := drop (Z.to_nat m) evs).
    assert (Hsplit : evs = pre ++ post) by (symmetry; apply take_drop).
    assert (Hlen : length pre = Z.to_nat m) by (unfold pre; rewrite length_take; lia).
    clearbody pre post. subst evs.
    destruct pre as [|lst front _] using rev_ind; [simpl in Hlen; lia |].
    rewrite length_app in Hlen. cbn [length] in Hlen.
    rewrite fold_left_app. unfold run.
    rewrite (fold_onEvent_complete getEventSchemaFromId parseEvent)
      by (cbn [emitter newPubSubEventEmitter receivedEventCount requestedEventCount]; lia).
    unfold handleLastRequested.
    cbn [emitter requestedEventCount receivedEventCount newPubSubEventEmitter].
    rewrite Z.eqb_refl. fold run.
    rewrite fold_onEvent_past
      by (cbn [emitOn emit emitter requestedEventCount receivedEventCount reportsEvent]; lia).
    cbn [emitOn emit emitter api em_topicName requestedEventCount receivedEventCount
         emitted reportsEvent app].
    split; [reflexivity |]. split; [rewrite !length_app; cbn [length]; lia |].
    split; [reflexivity |].
    rewrite !countSignals_app.
    unfold signal. rewrite !countSignals_lastevent_events. reflexivity.
  - apply Z.leb_gt in E. unfold run. rewrite fold_onEvent_below
      by (cbn [emitter newPubSubEventEmitter receivedEventCount requestedEventCount]; lia).
    cbn [emitter api newPubSubEventEmitter em_topicName requestedEventCount
         receivedEventCount emitted app].
    split; [reflexivity |]. split; [lia |]. split; [reflexivity |].
    apply countSignals_lastevent_events.
Qed.

Lemma unbounded_step (topic : string) (latest : Z) (ev : ConsumerEvent) (r : Z)
    (w : list FetchRequest) (log : list Signal) (c : PubSubApiClient) :
  subscriptions c !! topic = Some w ->
  run true latest
      {| emitter := {| em_topicName := topic; requestedEventCount := 100;
                       receivedEventCount := r; emitted := log |};
         api := c |} ev
  = if r + 1 =? 100
    then {| emitter := {| em_topicName := topic; requestedEventCount := 100;
                          receivedEventCount := 0;
                          emitted := log ++ [signal latest ev] |};
            api := {| client := client c;
                      subscriptions := <[topic := w ++ [reRequest topic]]> (subscriptions c);
                      warnings := warnings c |} |}
    else {| emitter := {| em_topicName := topic; requestedEventCount := 100;
                          receivedEventCount := r + 1;
                          emitted := log ++ [signal latest ev] |};
            api := c |}.
Proof.
  intros Hw. unfold run, signal, onEvent, handleLastRequested, emitOn, emit.
  cbn [emitter api requestedEventCount receivedEventCount em_topicName emitted].
  rewrite (eventSignal_reportsEvent getEventSchemaFromId parseEvent).
  destruct (r + 1 =? 100); [| reflexivity].
  unfold requestAdditionalEvents. cbn [em_topicName]. rewrite Hw. reflexivity.
Qed.

Lemma unbounded_fold (topic : string) (latest : Z) (evs : list ConsumerEvent) :
  forall (r : Z) (w : list FetchRequest) (log : list Signal) (c : PubSubApiClient),
    subscriptions c !! topic = Some w ->
    0 <= r < 100 ->
    let st' :=
      fold_left (run true latest) evs
        {| emitter := {| em_topicName := topic; requestedEventCount := 100;
                         receivedEventCount := r; emitted := log |};
           api := c |} in
    receivedEventCount (emitter st') = (r + Z.of_nat (length evs)) mod 100
    /\ requestedEventCount (emitter st') = 100
    /\ em_topicName (emitter st') = topic
    /\ subscriptions (api st') !! topic
       = Some (w ++ replicate (Z.to_nat ((r + Z.of_nat (length evs)) / 100)) (reRequest topic))
    /\ countSignals isLastevent (emitted (emitter st')) = countSignals isLastevent log.
Proof.
  induction evs as [|ev evs IH]; intros r w log c Hw Hr st'.
  - subst st'. cbn [fold_left emitter api receivedEventCount requestedEventCount
                    em_topicName emitted length].
    rewrite Z.add_0_r, Z.mod_small, Z.div_small by lia.
    cbn [Z.to_nat replicate]. rewrite app_nil_r. repeat split; assumption.
  - subst st'. cbn [fold_left]. rewrite (unbounded_step _ _ _ _ _ _ _ Hw).
    assert (Hcount : countSignals isLastevent (log ++ [signal latest ev])
                     = countSignals isLastevent log).
    { rewrite countSignals_app. unfold countSignals at 2. cbn [List.filter].
      unfold signal. rewrite eventSignal_not_lastevent. simpl. lia. }
    replace (Z.of_nat (length (ev :: evs))) with (1 + Z.of_nat (length evs))
      by (cbn [length]; lia).
    destruct (r + 1 =? 100) eqn:E.
    + apply Z.eqb_eq in E.
      destruct (IH 0 (w ++ [reRequest topic]) (log ++ [signal latest ev])
                  {| client := client c;
                     subscriptions := <[topic := w ++ [reRequest topic]]> (subscriptions c);
                     warnings := warnings c |})
        as (H1 & H2 & H3 & H4 & H5);
        [apply lookup_insert_eq | lia |].
      rewrite H1, H2, H3, H4, H5, Hcount.
      replace (r + (1 + Z.of_nat (length evs))) with (0 + Z.of_nat (length evs) + 1 * 100)
        by lia.
      rewrite Z.mod_add, Z.div_add by lia.
      rewrite Z2Nat.inj_add by (try apply Z.div_pos; lia).
      rewrite Nat.add_comm. cbn [Z.to_nat Pos.to_nat Pos.iter_op Nat.add replicate].
      rewrite <- app_assoc. repeat split; reflexivity.
    + apply Z.eqb_neq in E.
      destruct (IH (r + 1) w (log ++ [signal latest ev]) c Hw)
        as (H1 & H2 & H3 & H4 & H5); [lia |].
      rewrite H1, H2, H3, H4, H5, Hcount.
      replace (r + 1 + Z.of_nat (length evs)) with (r + (1 + Z.of_nat (length evs))) by lia.
      repeat split; reflexivity.
Qed.

(** X22. Unbounded mode over any batch: with the stream of the topic open,
    a requested count of 100 and [r] events received so far, a message with
    [n] events makes the handler write one request for 100 events each time
    the count reaches 100, that is [(r + n) / 100] requests, and leaves
    [(r + n) mod 100] events received; it never emits [lastevent]. *)
Theorem unbounded_re_requests (topic : string) (c : PubSubApiClient)
    (w : list FetchRequest) (log : list Signal) (r : Z)
    (data : FetchResponse) (evs : list ConsumerEvent) (latest : Z) :
  subscriptions c !! topic = Some w ->
  0 <= r < 100 ->
  events data = Some evs ->
  decodeReplayId (latestReplayId data) = OK latest ->
  exists st',
    onData getEventSchemaFromId parseEvent true data
           {| emitter := {| em_topicName := topic; requestedEventCount := 100;
                            receivedEventCount := r; emitted := log |};
              api := c |} = OK st'
    /\ receivedEventCount (emitter st') = (r + Z.of_nat (length evs)) mod 100
    /\ requestedEventCount (emitter st') = 100
    /\ written topic (api st')
       = w ++ replicate (Z.to_nat ((r + Z.of_nat (length evs)) / 100)) (reRequest topic)
    /\ countSignals isLastevent (emitted (emitter st')) = countSignals isLastevent log.
Proof.
  intros Hw Hr Hevs Hlatest. unfold onData. rewrite Hlatest, Hevs. cbn [mbind Exc_bind].
  eexists. split; [reflexivity |].
  destruct (unbounded_fold topic latest evs r w log c Hw Hr) as (H1 & H2 & _ & H4 & H5).
  unfold written. fold run. rewrite H4. repeat split; assumption.
Qed.

Lemma handlerFrame_refl (st : Engine) : handlerFrame st st.
Proof. unfold handlerFrame. repeat split; auto. Qed.

Lemma handlerFrame_trans (st1 st2 st3 : Engine) :
  handlerFrame st1 st2 -> handlerFrame st2 st3 -> handlerFrame st1 st3.
Proof.
  intros (T1 & C1 & W1 & O1 & S1 & E1 & R1) (T2 & C2 & W2 & O2 & S2 & E2 & R2).
  rewrite T1 in *. unfold handlerFrame.
  split; [congruence |]. split; [congruence |]. split; [congruence |].
  split; [intros t Ht; rewrite O2, O1; auto |].
  split; [etrans; eauto |].
  split; etrans; eauto.
Qed.

Lemma emitOn_frame (s : Signal) (st : Engine) : handlerFrame st (emitOn s st).
Proof.
  unfold handlerFrame, emitOn, emit.
  cbn [emitter api em_topicName emitted].
  repeat split; auto. now exists [s].
Qed.

Lemma handleLastRequested_frame (isInfinite : bool) (st : Engine) :
  handlerFrame st (handleLastRequested isInfinite st).
Proof.
  unfold handleLastRequested.
  destruct (_ =? _); [| apply handlerFrame_refl].
  destruct isInfinite; [| apply emitOn_frame].
  unfold requestAdditionalEvents.
  destruct (subscriptions (api st) !! em_topicName (emitter st)) as [w|] eqn:Hw;
    [| apply handlerFrame_refl].
  unfold handlerFrame, written, _resetEventCount.
  cbn [emitter api em_topicName emitted client warnings subscriptions].
  rewrite lookup_insert_eq, Hw. cbn [default].
  split; [reflexivity |]. split; [reflexivity |]. split; [reflexivity |].
  split; [intros t Ht; apply lookup_insert_ne; congruence |].
  split; [split; eauto |].
  split; [reflexivity |]. eexists. reflexivity.
Qed.

Lemma fold_onEvent_frame (isInfinite : bool) (latest : Z) (evs : list ConsumerEvent) :
  forall st, handlerFrame st (fold_left (run isInfinite latest) evs st).
Proof.
  induction evs as [|ev evs IH]; intros st; [apply handlerFrame_refl |].
  cbn [fold_left]. eapply handlerFrame_trans; [| apply IH].
  unfold run, onEvent.
  eapply handlerFrame_trans; [apply emitOn_frame | apply handleLastRequested_frame].
Qed.

(** X23. What the ["data"] handler leaves alone: whatever the message and
    the mode, once the latest replay id decodes the handler returns, and
    all it has done is to append to the log of its emitter and to the
    stream of its own topic. The topic of the emitter, the connection, the
    warnings, the streams of the other topics and whether its own topic has
    a stream are as before. *)
Theorem onData_frame (isInfinite : bool) (data : FetchResponse) (st : Engine)
    (latest : Z) :
  decodeReplayId (latestReplayId data) = OK latest ->
  exists st',
    onData getEventSchemaFromId parseEvent isInfinite data st = OK st'
    /\ handlerFrame st st'.
Proof.
  intros Hlatest. unfold onData. rewrite Hlatest. cbn [mbind Exc_bind].
  destruct (events data) as [evs|].
  - eexists. split; [reflexivity |]. apply fold_onEvent_frame.
  - eexists. split; [reflexivity |]. apply emitOn_frame.
Qed.

(** X24. A latest replay id of fewer than eight bytes makes the first
    statement of the ["data"] handler throw a [RangeError]: the handler
    fails before anything is emitted or written, whatever events the
    message carries and in either mode. *)
Theorem onData_short_latestReplayId (isInfinite : bool) (data : FetchResponse)
    (st : Engine) :
  (length (latestReplayId data) < 8)%nat ->
  exists message,
    onData getEventSchemaFromId parseEvent isInfinite data st
    = Throw (RangeError message).
Proof.
  intros Hlen. unfold onData.
  destruct (decodeReplayId_too_short _ Hlen) as [message ->].
  now exists message.
Qed.

End FlowControl.

(** X25. After the ["end"] handler has run, the topic of the emitter has no
    stream left, the streams of the other topics are untouched, [end] is
    the last signal, and a request for additional events on that emitter
    fails with an [Error], whatever the number requested. *)
Theorem requestAdditionalEvents_after_end (st : Engine) (n : Z) :
  subscriptions (api (onEnd st)) !! em_topicName (emitter st) = None
  /\ (forall topic, topic <> em_topicName (emitter st) ->
      subscriptions (api (onEnd st)) !! topic = subscriptions (api st) !! topic)
  /\ List.last (emitted (emitter (onEnd st))) SigLastevent = SigEnd
  /\ exists message,
       requestAdditionalEvents (emitter (onEnd st)) n (api (onEnd st))
       = Throw (Error message None).
Proof.
  unfold onEnd, emitOn, emit, requestAdditionalEvents.
  cbn [emitter api em_topicName emitted subscriptions].
  rewrite lookup_delete_eq.
  split; [reflexivity |].
  split; [intros topic Hne; apply lookup_delete_ne; congruence |].
  split; [apply last_last |].
  eexists. reflexivity.
Qed.

(** X26. What [connectWithAuth] lets through: when it reaches the
    connection, the instance URL is the one passed and starts with
    [https://], the access token is the one passed, and the organization id
    it hands over has 15 or 18 characters. *)
Theorem connectWithAuth_accepts (token url organization : option string)
    (meta : ConnectionMetadata) :
  connectWithAuth token url organization = OK meta ->
  url = Some (instanceUrl meta)
  /\ Js.startsWith "https://" (instanceUrl meta) = true
  /\ accessToken meta = token
  /\ (String.length (organizationId meta) = 15%nat
      \/ String.length (organizationId meta) = 18%nat).
Proof.
  unfold connectWithAuth. destruct url as [u|]; [| discriminate].
  destruct (String.eqb u "" || negb (Js.startsWith "https://" u)) eqn:Hurl;
    [discriminate |].
  apply orb_false_elim in Hurl as [_ Hstart]. apply negb_false_iff in Hstart.
  destruct (match organization with
            | Some o => if String.eqb o "" then organizationFromToken token else OK o
            | None => organizationFromToken token
            end) as [org|e]; cbn [mbind Exc_bind]; [| discriminate].
  destruct (negb (String.length org =? 15)%nat && negb (String.length org =? 18)%nat)
    eqn:Hlen; [discriminate |].
  intros [= <-]. cbn [instanceUrl accessToken organizationId].
  repeat split; try assumption.
  apply andb_false_iff in Hlen as [H|H]; apply negb_false_iff, Nat.eqb_eq in H; auto.
Qed.

(** X27. Without an organization id (not passed, or empty), the
    organization id is what the access token has before its first
    exclamation mark: with a valid instance URL and a token [org!rest]
    whose [org] has 15 or 18 characters, none of them an exclamation mark,
    [connectWithAuth] reaches the connection with [org]. *)
Theorem connectWithAuth_org_from_token (org rest url : string)
    (organization : option string) :
  organization = None \/ organization = Some "" ->
  Js.startsWith "https://" url = true ->
  Js.includes "!" org = false ->
  String.length org = 15%nat \/ String.length org = 18%nat ->
  connectWithAuth (Some (org +:+ String "!" rest)) (Some url) organization
  = OK {| accessToken := Some (org +:+ String "!" rest);
          instanceUrl := url; organizationId := org |}.
Proof.
  intros Horg Hurl Hbang Hlen. unfold connectWithAuth.
  assert (Hne : String.eqb url "" = false).
  { destruct (String.eqb_spec url ""); [subst url; discriminate | reflexivity]. }
  rewrite Hne, Hurl. cbn [negb orb].
  assert (Htoken : organizationFromToken (Some (org +:+ String "!" rest)) = OK org).
  { unfold organizationFromToken, Js.split.
    rewrite (splitAcc_separator _ _ _ _ Hbang). cbn [rev app hd].
    now rewrite string_chars. }
  assert (Hvalid : (match organization with
                    | Some o => if String.eqb o ""
                                then organizationFromToken (Some (org +:+ String "!" rest))
                                else OK o
                    | None => organizationFromToken (Some (org +:+ String "!" rest))
                    end) = OK org).
  { destruct Horg as [-> | ->]; [exact Htoken |]. cbn [String.eqb]. exact Htoken. }
  rewrite Hvalid. cbn [mbind Exc_bind].
  destruct Hlen as [-> | ->]; reflexivity.
Qed.

Lemma bounded_lastevent_once_witness :
  exists st',
    onData exampleGetSchema exampleParseEvent false
           (messageOf (Some [goodEvent x01; badEvent x02; goodEvent x03]) x03)
           {| emitter := newPubSubEventEmitter "/event/T" 2; api := connectedClient |}
    = OK st'
    /\ api st' = connectedClient
    /\ receivedEventCount (emitter st') = 3
    /\ countSignals isLastevent (emitted (emitter st')) = 1%nat.
Proof.
  destruct (bounded_lastevent_once exampleGetSchema exampleParseEvent "/event/T" 2
              connectedClient
              (messageOf (Some [goodEvent x01; badEvent x02; goodEvent x03]) x03)
              [goodEvent x01; badEvent x02; goodEvent x03] 3
              ltac:(lia) eq_refl eq_refl)
    as (st' & Hrun & Hapi & Hreceived & _ & _ & Hlast).
  exists st'. repeat split; assumption.
Defined.

Lemma unbounded_re_requests_witness :
  exists st',
    onData exampleGetSchema exampleParseEvent true
           (messageOf (Some (replicate 205 (goodEvent x01))) x01)
           {| emitter := {| em_topicName := "/event/T"; requestedEventCount := 100;
                            receivedEventCount := 0; emitted := [] |};
              api := snd (subscribe unboundedRequest connectedClient) |}
    = OK st'
    /\ receivedEventCount (emitter st') = 5
    /\ written "/event/T" (api st')
       = [{| topicName := "/event/T"; numRequested := 100;
             replayPreset := None; fr_replayId := None |};
          reRequest "/event/T"; reRequest "/event/T"].
Proof.
  destruct (unbounded_re_requests exampleGetSchema exampleParseEvent "/event/T"
              (snd (subscribe unboundedRequest connectedClient))
              [{| topicName := "/event/T"; numRequested := 100;
                  replayPreset := None; fr_replayId := None |}]
              [] 0
              (messageOf (Some (replicate 205 (goodEvent x01))) x01)
              (replicate 205 (goodEvent x01)) 1
              eq_refl ltac:(lia) eq_refl eq_refl)
    as (st' & Hrun & Hreceived & _ & Hwritten & _).
  exists st'. split; [exact Hrun |]. split; [exact Hreceived | exact Hwritten].
Defined.

Lemma onData_frame_witness :
  exists st',
    onData exampleGetSchema exampleParseEvent true
           (messageOf (Some [goodEvent x01; badEvent x02]) x02)
           {| emitter := newPubSubEventEmitter "/event/T" 2;
              api := snd (subscribe unboundedRequest connectedClient) |}
    = OK st'
    /\ handlerFrame
         {| emitter := newPubSubEventEmitter "/event/T" 2;
            api := snd (subscribe unboundedRequest connectedClient) |} st'.
Proof.
  apply (onData_frame exampleGetSchema exampleParseEvent true
           (messageOf (Some [goodEvent x01; badEvent x02]) x02)
           {| emitter := newPubSubEventEmitter "/event/T" 2;
              api := snd (subscribe unboundedRequest connectedClient) |} 2).
  reflexivity.
Defined.

Lemma onData_short_latestReplayId_witness :
  exists message,
    onData exampleGetSchema exampleParseEvent false
           {| events := Some [goodEvent x01]; latestReplayId := [x00; x01];
              rpcId := "rpc"; pendingNumRequested := 0 |}
           {| emitter := newPubSubEventEmitter "/event/T" 2; api := connectedClient |}
    = Throw (RangeError message).
Proof.
  apply (onData_short_latestReplayId exampleGetSchema exampleParseEvent false
           {| events := Some [goodEvent x01]; latestReplayId := [x00; x01];
              rpcId := "rpc"; pendingNumRequested := 0 |}).
  cbn [latestReplayId length]. lia.
Defined.

Lemma connectWithAuth_accepts_witness :
  connectWithAuth (Some "token") (Some "https://example.my.salesforce.com")
                  (Some "00D000000000001")
  = OK {| accessToken := Some "token";
          instanceUrl := "https://example.my.salesforce.com";
          organizationId := "00D000000000001" |}
  /\ Js.startsWith "https://" "https://example.my.salesforce.com" = true
  /\ (String.length "00D000000000001" = 15%nat
      \/ String.length "00D000000000001" = 18%nat).
Proof.
  split; [reflexivity |].
  destruct (connectWithAuth_accepts (Some "token") (Some "https://example.my.salesforce.com")
              (Some "00D000000000001")
              {| accessToken := Some "token";
                 instanceUrl := "https://example.my.salesforce.com";
                 organizationId := "00D000000000001" |} eq_refl)
    as (_ & Hstart & _ & Hlen).
  split; [exact Hstart | exact Hlen].
Defined.

Lemma connectWithAuth_org_from_token_witness :
  connectWithAuth (Some "00D000000000001!AQEAQ") (Some "https://example.my.salesforce.com")
                  None
  = OK {| accessToken := Some "00D000000000001!AQEAQ";
          instanceUrl := "https://example.my.salesforce.com";
          organizationId := "00D000000000001" |}.
Proof.
  apply (connectWithAuth_org_from_token "00D000000000001" "AQEAQ"
           "https://example.my.salesforce.com" None);
    [left; reflexivity | reflexivity | reflexivity | left; reflexivity].
Defined.
